(** * shell-exec-mcp: the [execute] and [get_job_status] tools of src/tools/bash.ts

    A shallow embedding of the two tool handlers registered by
    [registerBash].  The handlers are event driven: the child process
    created by [spawn] reports output and termination through the
    ['data'], ['close'] and ['error'] callbacks, and the foreground
    handler arms two timers.  The embedding makes that explicit:

    - a background job object lives in a store ([heap]) and is shared
      between the job table ([backgroundJobs], a [Map] from id to the
      object) and the callbacks of its child process, which keep
      mutating it after the table has dropped it;
    - the closure variables of one foreground call ([stdout], [stderr],
      [timedOut], the two timers, the promise) form a record, and the
      callbacks are functions on that record;
    - what the runtime supplies is an input: the chunks read from the
      pipes, the exit code, the error message, the rendering of
      [Math.random()] in base 36, the [pid] of the child, the clock. *)

From Stdlib Require Import ZArith Lia.
From stdpp Require Import base option list strings gmap fin_maps pretty.

Local Open Scope Z_scope.

(** ** Values of the runtime *)

(** A [Buffer] handed to a ['data'] callback. *)
Definition Buffer := list Byte.byte.

(** The line feed of the template literals [`\nProcess ...`]. *)
Definition LF : string := String (Ascii.ascii_of_nat 10) EmptyString.

(** [String.prototype.includes]. *)
Definition includes (needle s : string) : Prop :=
  ∃ before after : string, s = before +:+ needle +:+ after.

(** [x ?? d]: only [null]/[undefined] is replaced. *)
Definition nullish {A} (x : option A) (d : A) : A :=
  match x with
  | Some v => v
  | None => d
  end.

Definition DEFAULT_TIMEOUT : Z := 5000.

(** The handle returned by [spawn].  [pid] is [undefined] when the
    child could not be spawned. *)
Record ChildProcess := mkChild {
  pid : option Z;
}.

(** What a child process reports to its callbacks. *)
Inductive ChildEvent :=
| StdoutData (data : Buffer)
| StderrData (data : Buffer)
| Close (code : option Z)
| Error (message : string).

(** The signals the handler passes to [child.kill]. *)
Inductive Signal := SIGTERM | SIGKILL.

(** ** Tool arguments and results *)

Record ExecuteArgs := mkArgs {
  command : string;
  timeout : option Z;
  background : option bool;
}.

Record ExecuteResult := mkExecuteResult {
  res_stdout : string;
  res_stderr : string;
  res_exitCode : Z;
}.

Record BackgroundResult := mkBackgroundResult {
  res_jobId : string;
  res_pid : Z;
}.

Record StatusResult := mkStatusResult {
  st_stdout : string;
  st_stderr : string;
  st_exitCode : option Z;
  st_running : bool;
}.

(** A handler either returns a result or throws [new Error(message)]. *)
Inductive Outcome (A : Type) :=
| Returned (value : A)
| Thrown (message : string).
Arguments Returned {A} value.
Arguments Thrown {A} message.

(** ** Background jobs *)

Record BackgroundJob := mkJob {
  job_process : ChildProcess;
  job_stdout : string;
  job_stderr : string;
  job_exitCode : option Z;
  job_startedAt : Z;
}.

(** A reference to a job object in the store. *)
Abbreviation JobRef := nat.

(** The module state: the job objects allocated so far and the
    [backgroundJobs] map, which holds references to them. *)
Record Server := mkServer {
  heap : list BackgroundJob;
  backgroundJobs : gmap string JobRef;
}.

Definition initial : Server := mkServer [] ∅.

(** [Math.random().toString(36).substring(2, 10)], given the base 36
    rendering [rnd36] of the random number. *)
Definition generateJobId (rnd36 : string) : string :=
  String.substring 2 8 rnd36.

(** A runtime to run the model on examples: a decoder that agrees with
    [Buffer.prototype.toString] on ASCII output, and the decimal
    rendering of an integer. *)
Definition ascii_toString (data : Buffer) : string := String.string_of_list_byte data.

Definition decimal (n : Z) : string := pretty n.

Definition bytes (s : string) : Buffer := String.list_byte_of_string s.

(** ** Alias resolution of src/utils/schema.ts *)

Section Aliases.

(** The values of the properties of the argument object are
    [unknown].  [aliases] is an object literal, and so is [result]:
    [aliases[key]] and [canonicalKey in result] also find what
    [Object.prototype] defines.  [inherited name] is the property key
    that the value inherited under [name] converts to, [None] for a
    name [Object.prototype] does not define. *)
Context {V : Type}.
Variable inherited : string → option string.

(** What [z.preprocess] hands to the function: something that is not
    an object (or is [null]), or an object, given by its own
    enumerable properties in the order of [Object.keys]. *)
Inductive Unknown :=
| NotObject (v : V)
| Object (props : list (string * V)).

(** What the function returns: its argument as it is, or the object
    [result]. *)
Inductive Preprocessed :=
| Untouched (v : V)
| Built (result : gmap string V).

(** [aliases[key] ?? key]. *)
Definition canonicalKey (aliases : gmap string string) (key : string) : string :=
  match aliases !! key with
  | Some canonical => canonical
  | None => nullish (inherited key) key
  end.

(** [canonicalKey in result]. *)
Definition in_result (canonical : string) (result : gmap string V) : bool :=
  bool_decide (is_Some (result !! canonical)) || bool_decide (is_Some (inherited canonical)).

(** One turn of the loop over [Object.keys(input)]. *)
Definition resolve_step (aliases : gmap string string) (result : gmap string V)
    (kv : string * V) : gmap string V :=
  let canonical := canonicalKey aliases kv.1 in
  if in_result canonical result then result else <[canonical := kv.2]> result.

Definition resolve_aliases (aliases : gmap string string) (props : list (string * V)) :
    gmap string V :=
  foldl (resolve_step aliases) ∅ props.

(** The function [strictSchemaWithAliases] gives to [z.preprocess]. *)
Definition preprocess (aliases : gmap string string) (args : Unknown) : Preprocessed :=
  match args with
  | NotObject v => Untouched v
  | Object props => Built (resolve_aliases aliases props)
  end.

(** The properties of the argument under their canonical names, those
    whose canonical name [Object.prototype] defines left out. *)
Definition renamed (aliases : gmap string string) (props : list (string * V)) :
    list (string * V) :=
  omap (λ kv, let canonical := canonicalKey aliases kv.1 in
              if bool_decide (is_Some (inherited canonical)) then None
              else Some (canonical, kv.2)) props.

End Aliases.

Arguments Unknown : clear implicits.
Arguments Preprocessed : clear implicits.

(** An [Object.prototype] for the examples: the names it defines, each
    with a stand-in for the text its value converts to. *)
Definition sample_prototype (name : string) : option string :=
  if bool_decide (name ∈ ["constructor"; "hasOwnProperty"; "isPrototypeOf";
                          "propertyIsEnumerable"; "toLocaleString"; "toString";
                          "valueOf"; "__proto__"; "__defineGetter__";
                          "__defineSetter__"; "__lookupGetter__"; "__lookupSetter__"])
  then Some ("[inherited " +:+ name +:+ "]") else None.

(** Two servers to run the handlers on: one whose only job has
    completed, one whose only job is running. *)
Definition completed_job : BackgroundJob :=
  mkJob (mkChild (Some 4242)) ("done" +:+ LF) "" (Some 0) 0.

Definition running_job : BackgroundJob :=
  mkJob (mkChild (Some 4242)) "partial" "" None 0.

Definition server_completed : Server :=
  mkServer [completed_job] {[ "4fzyo82m" := 0%nat ]}.

Definition server_running : Server :=
  mkServer [running_job] {[ "4fzyo82m" := 0%nat ]}.

Section Runtime.

Set Default Proof Using "Type".

(** [Buffer.prototype.toString] and the rendering of a number inside a
    template literal are the runtime's. *)
Variable toString : Buffer → string.
Variable numberToString : Z → string.

(** The four callbacks registered on the child of a background job. *)
Definition job_on_event (ev : ChildEvent) (job : BackgroundJob) : BackgroundJob :=
  match ev with
  | StdoutData data =>
      mkJob (job_process job) (job_stdout job +:+ toString data) (job_stderr job)
            (job_exitCode job) (job_startedAt job)
  | StderrData data =>
      mkJob (job_process job) (job_stdout job) (job_stderr job +:+ toString data)
            (job_exitCode job) (job_startedAt job)
  | Close code =>
      mkJob (job_process job) (job_stdout job) (job_stderr job)
            (Some (nullish code 1)) (job_startedAt job)
  | Error message =>
      mkJob (job_process job) (job_stdout job)
            (job_stderr job +:+ LF +:+ "Process error: " +:+ message)
            (Some 1) (job_startedAt job)
  end.

(** Delivery of an event of the child whose callbacks close over the
    job object [r]. *)
Definition deliver (r : JobRef) (ev : ChildEvent) (s : Server) : Server :=
  mkServer (alter (job_on_event ev) r (heap s)) (backgroundJobs s).

(** The background branch of the [execute] handler.  [rnd36] is the
    rendering of the random number, [child] the handle [spawn]
    returned, [now] the value of [new Date()]. *)
Definition execute_background (rnd36 : string) (child : ChildProcess) (now : Z)
    (s : Server) : Server * Outcome BackgroundResult :=
  let jobId := generateJobId rnd36 in
  let job := mkJob child "" "" None now in
  let r := length (heap s) in
  (mkServer (heap s ++ [job]) (<[jobId := r]> (backgroundJobs s)),
   Returned (mkBackgroundResult jobId (nullish (pid child) 0))).

(** The [get_job_status] handler. *)
Definition get_job_status (jobId : string) (s : Server) : Server * Outcome StatusResult :=
  match backgroundJobs s !! jobId ≫= λ r, heap s !! r with
  | None => (s, Thrown ("Job not found: " +:+ jobId))
  | Some job =>
      let running := bool_decide (job_exitCode job = None) in
      let s' := if running then s
                else mkServer (heap s) (delete jobId (backgroundJobs s)) in
      (s', Returned (mkStatusResult (job_stdout job) (job_stderr job)
                                    (job_exitCode job) running))
  end.

(** ** One foreground call *)

(** A timer created by [setTimeout]: not created yet, waiting for its
    due time, run, or cancelled by [clearTimeout]. *)
Inductive Timer :=
| Unset
| Pending (due : Z)
| Fired
| Cleared.

(** The variables the callbacks of one foreground call close over:
    the constant [timeout], [stdout], [stderr], [timedOut], the timer
    [timeoutId], the timer created inside its callback, and the promise
    ([None] while it is pending).  [fg_kills] logs the calls of
    [child.kill] with the time of the call. *)
Record Foreground := mkForeground {
  fg_timeout : Z;
  fg_stdout : string;
  fg_stderr : string;
  fg_timedOut : bool;
  fg_timeoutId : Timer;
  fg_killTimer : Timer;
  fg_kills : list (Z * Signal);
  fg_promise : option ExecuteResult;
}.

(** [resolve(v)] settles a pending promise and does nothing to a
    settled one. *)
Definition resolve (v : ExecuteResult) (p : option ExecuteResult) : option ExecuteResult :=
  match p with
  | None => Some v
  | Some _ => p
  end.

(** The delay [setTimeout] works with: a delay below 1 or above
    2147483647 is set to 1 by the runtime. *)
Definition TIMEOUT_MAX : Z := 2147483647.

Definition setTimeout_delay (delay : Z) : Z :=
  if bool_decide (1 ≤ delay ≤ TIMEOUT_MAX) then delay else 1.

Definition clearTimeout (t : Timer) : Timer :=
  match t with
  | Pending _ => Cleared
  | _ => t
  end.

(** The promise executor, run at time [now]: the timer [timeoutId] is
    armed with the delay [timeout]. *)
Definition start_foreground (now timeout : Z) : Foreground :=
  mkForeground timeout "" "" false (Pending (now + setTimeout_delay timeout))
               Unset [] None.

(** The callback of [timeoutId], run at time [t]; the delay 1000 of
    the timer it creates is within the range of [setTimeout]. *)
Definition timeout_callback (t : Z) (c : Foreground) : Foreground :=
  mkForeground (fg_timeout c) (fg_stdout c) (fg_stderr c) true
               Fired (Pending (t + 1000))
               (fg_kills c ++ [(t, SIGTERM)]) (fg_promise c).

(** The callback of the inner timer: [child.kill('SIGKILL')]. *)
Definition kill_callback (t : Z) (c : Foreground) : Foreground :=
  mkForeground (fg_timeout c) (fg_stdout c) (fg_stderr c) (fg_timedOut c)
               (fg_timeoutId c) Fired
               (fg_kills c ++ [(t, SIGKILL)]) (fg_promise c).

(** The clock reaches [t]: the timers that are due run, each at its
    due time, the outer one first since the inner one is created by
    it. *)
Definition advance (t : Z) (c : Foreground) : Foreground :=
  let c1 := match fg_timeoutId c with
            | Pending due => if bool_decide (due ≤ t) then timeout_callback due c else c
            | _ => c
            end in
  match fg_killTimer c1 with
  | Pending due => if bool_decide (due ≤ t) then kill_callback due c1 else c1
  | _ => c1
  end.

(** The four callbacks registered on the child of a foreground call.
    [timeout] is taken integral, as the milliseconds of the
    specification are. *)
Definition fg_on_event (ev : ChildEvent) (c : Foreground) : Foreground :=
  match ev with
  | StdoutData data =>
      mkForeground (fg_timeout c) (fg_stdout c +:+ toString data) (fg_stderr c)
                   (fg_timedOut c) (fg_timeoutId c) (fg_killTimer c)
                   (fg_kills c) (fg_promise c)
  | StderrData data =>
      mkForeground (fg_timeout c) (fg_stdout c) (fg_stderr c +:+ toString data)
                   (fg_timedOut c) (fg_timeoutId c) (fg_killTimer c)
                   (fg_kills c) (fg_promise c)
  | Close code =>
      let stderr := if fg_timedOut c
                    then fg_stderr c +:+ LF +:+ "Process timed out after "
                         +:+ numberToString (fg_timeout c) +:+ "ms"
                    else fg_stderr c in
      mkForeground (fg_timeout c) (fg_stdout c) stderr
                   (fg_timedOut c) (clearTimeout (fg_timeoutId c)) (fg_killTimer c)
                   (fg_kills c)
                   (resolve (mkExecuteResult (fg_stdout c) stderr
                               (if fg_timedOut c then 124 else nullish code 1))
                            (fg_promise c))
  | Error message =>
      mkForeground (fg_timeout c) (fg_stdout c) (fg_stderr c)
                   (fg_timedOut c) (clearTimeout (fg_timeoutId c)) (fg_killTimer c)
                   (fg_kills c)
                   (resolve (mkExecuteResult (fg_stdout c)
                               (fg_stderr c +:+ LF +:+ "Process error: " +:+ message) 1)
                            (fg_promise c))
  end.

(** An event of the child arriving at time [t]: the timers due by
    then have run, a timer due at [t] before the event. *)
Definition fg_step (c : Foreground) (tev : Z * ChildEvent) : Foreground :=
  fg_on_event tev.2 (advance tev.1 c).

Definition fg_run (trace : list (Z * ChildEvent)) (c : Foreground) : Foreground :=
  foldl fg_step c trace.

(** ** The [execute] handler *)

(** What the handler hands back: the background branch returns at
    once, the foreground branch returns a pending promise. *)
Inductive Execution :=
| InBackground (s : Server) (out : Outcome BackgroundResult)
| InForeground (c : Foreground).

Definition truthy (b : option bool) : bool := nullish b false.

Definition execute (args : ExecuteArgs) (rnd36 : string) (child : ChildProcess)
    (now : Z) (s : Server) : Execution :=
  let timeout := nullish (timeout args) DEFAULT_TIMEOUT in
  if truthy (background args)
  then let '(s', out) := execute_background rnd36 child now s in InBackground s' out
  else InForeground (start_foreground now timeout).

(** ** Histories of the server *)

(** What can happen to the module state: a background [execute], an
    event of the child of some job, a [get_job_status]. *)
Inductive Op :=
| OpExecute (command : string) (rnd36 : string) (child : ChildProcess) (now : Z)
| OpEvent (r : JobRef) (ev : ChildEvent)
| OpStatus (jobId : string).

Definition op_step (s : Server) (o : Op) : Server :=
  match o with
  | OpExecute cmd rnd36 child now =>
      match execute (mkArgs cmd None (Some true)) rnd36 child now s with
      | InBackground s' _ => s'
      | InForeground _ => s
      end
  | OpEvent r ev => deliver r ev s
  | OpStatus jobId => (get_job_status jobId s).1
  end.

Definition op_run (ops : list Op) (s : Server) : Server := foldl op_step s ops.

(** The ids handed out by the background calls of a history. *)
Definition issued (ops : list Op) : list string :=
  omap (λ o, match o with
             | OpExecute _ rnd36 _ _ => Some (generateJobId rnd36)
             | _ => None
             end) ops.

(** ** Traces of one child *)

Definition is_data (ev : ChildEvent) : bool :=
  match ev with
  | StdoutData _ | StderrData _ => true
  | _ => false
  end.

Definition is_terminal (ev : ChildEvent) : bool := negb (is_data ev).

(** The text a list of events carries on each pipe, chunk by chunk in
    the order of arrival. *)
Fixpoint stdout_of (evs : list ChildEvent) : string :=
  match evs with
  | [] => ""
  | StdoutData data :: evs' => toString data +:+ stdout_of evs'
  | _ :: evs' => stdout_of evs'
  end.

Fixpoint stderr_of (evs : list ChildEvent) : string :=
  match evs with
  | [] => ""
  | StderrData data :: evs' => toString data +:+ stderr_of evs'
  | _ :: evs' => stderr_of evs'
  end.

(** The callbacks of a background job run on the events of its child. *)
Definition job_run (evs : list ChildEvent) (job : BackgroundJob) : BackgroundJob :=
  foldl (λ j ev, job_on_event ev j) job evs.

(** The events of a history that reach the job object [r]. *)
Definition events_for (r : JobRef) (ops : list Op) : list ChildEvent :=
  omap (λ o, match o with
             | OpEvent r' ev => if bool_decide (r' = r) then Some ev else None
             | _ => None
             end) ops.

(** The ops that neither complete a job nor start one: polls, of any
    id, and output of any child. *)
Definition quiet (o : Op) : bool :=
  match o with
  | OpStatus _ => true
  | OpEvent _ ev => is_data ev
  | OpExecute _ _ _ _ => false
  end.

(** The number of steps of a trace at which the exit code of the job
    goes from [null] to a number. *)
Fixpoint settlements (evs : list ChildEvent) (job : BackgroundJob) : nat :=
  match evs with
  | [] => 0
  | ev :: evs' =>
      let job' := job_on_event ev job in
      ((if bool_decide (job_exitCode job = None ∧ job_exitCode job' ≠ None)
        then 1 else 0) + settlements evs' job')%nat
  end.

(** The order in which [node:child_process] emits the events of one
    child: the pipes deliver their data, ['close'] is emitted once the
    process has ended and the pipes are closed and nothing follows it,
    and an ['error'] (the child could not be spawned) is followed by
    ['close'] only. *)
Inductive Phase := Streaming | Failed | Closed.

Definition phase_step (p : Phase) (ev : ChildEvent) : option Phase :=
  match p, ev with
  | Streaming, StdoutData _ | Streaming, StderrData _ => Some Streaming
  | Streaming, Error _ => Some Failed
  | Streaming, Close _ | Failed, Close _ => Some Closed
  | _, _ => None
  end.

Fixpoint orderly_from (p : Phase) (evs : list ChildEvent) : bool :=
  match evs with
  | [] => true
  | ev :: evs' =>
      match phase_step p ev with
      | Some p' => orderly_from p' evs'
      | None => false
      end
  end.

Definition orderly (evs : list ChildEvent) : bool := orderly_from Streaming evs.

(** The events of a foreground call up to a ['close'] at time [tc]:
    output only, none later than [tc]. *)
Definition data_until (tc : Z) (pre : list (Z * ChildEvent)) : bool :=
  forallb (λ tev, is_data tev.2 && bool_decide (tev.1 ≤ tc)) pre.

(** The call [c] with more text appended to its two accumulators. *)
Definition with_output (out err : string) (c : Foreground) : Foreground :=
  mkForeground (fg_timeout c) (fg_stdout c +:+ out) (fg_stderr c +:+ err)
               (fg_timedOut c) (fg_timeoutId c) (fg_killTimer c)
               (fg_kills c) (fg_promise c).

(** The inner timer is created by the callback of [timeoutId]: while
    [timeoutId] is waiting there is no inner timer. *)
Definition timers_ok (c : Foreground) : bool :=
  match fg_timeoutId c, fg_killTimer c with
  | Pending _, Unset => true
  | Pending _, _ => false
  | _, _ => true
  end.

(** The ids polled in a history. *)
Definition polled (ops : list Op) : list string :=
  omap (λ o, match o with
             | OpStatus jobId => Some jobId
             | _ => None
             end) ops.

(** What [get_job_status] returns for a job object. *)
Definition snapshot (job : BackgroundJob) : StatusResult :=
  mkStatusResult (job_stdout job) (job_stderr job) (job_exitCode job)
                 (bool_decide (job_exitCode job = None)).

(** The states of the timers of a call whose [timeoutId] is due at
    [d]: nothing has run and nothing was signalled, or the callback of
    [timeoutId] has run, and then the inner one is waiting or has run. *)
Definition timers_coherent (d : Z) (c : Foreground) : Prop :=
  ((fg_timeoutId c = Pending d ∨ fg_timeoutId c = Cleared)
   ∧ fg_killTimer c = Unset ∧ fg_kills c = [] ∧ fg_timedOut c = false)
  ∨ (fg_timeoutId c = Fired ∧ fg_timedOut c = true
     ∧ ((fg_killTimer c = Pending (d + 1000) ∧ fg_kills c = [(d, SIGTERM)])
        ∨ (fg_killTimer c = Fired
           ∧ fg_kills c = [(d, SIGTERM); (d + 1000, SIGKILL)]))).

(** ** Statements of the specification, as predicates on an input *)








(** The timer of a foreground call is due exactly [timeout] ms after
    the start, 5000 when there is none. *)
Definition timer_due_after_timeout (args : ExecuteArgs) (rnd36 : string)
    (child : ChildProcess) (now : Z) (s : Server) : Prop :=
  truthy (background args) = false →
  ∃ c, execute args rnd36 child now s = InForeground c
       ∧ fg_timeoutId c = Pending (now + nullish (timeout args) DEFAULT_TIMEOUT).

(** A background call returns a non-empty id and a positive pid. *)
Definition background_result_positive (args : ExecuteArgs) (rnd36 : string)
    (child : ChildProcess) (now : Z) (s : Server) : Prop :=
  ∃ s' res, execute args rnd36 child now s = InBackground s' (Returned res)
            ∧ res_jobId res ≠ "" ∧ 0 < res_pid res.


(** ** Strings *)

Lemma string_app_cons (x : Ascii.ascii) (a b : string) :
  String x a +:+ b = String x (a +:+ b).
Proof. reflexivity. Qed.

Lemma string_app_assoc (a b c : string) : (a +:+ b) +:+ c = a +:+ b +:+ c.
Proof.
  induction a as [|x a IH]; [reflexivity|].
  by rewrite !string_app_cons, IH.
Qed.

Lemma string_app_nil_r (a : string) : a +:+ "" = a.
Proof.
  induction a as [|x a IH]; [reflexivity|].
  by rewrite string_app_cons, IH.
Qed.

Lemma includes_app_l (needle a b : string) : includes needle b → includes needle (a +:+ b).
Proof.
  intros (before & after & ->). exists (a +:+ before), after.
  symmetry. apply string_app_assoc.
Qed.

Lemma substring_length_le (n m : nat) (s : string) :
  (String.length (String.substring n m s) ≤ m)%nat.
Proof.
  revert n m. induction s as [|x s IH]; intros [|n] [|m]; simpl; try lia.
  - specialize (IH 0%nat m). lia.
  - apply (IH n 0%nat).
  - apply (IH n (S m)).
Qed.

Lemma substring_nonempty (n m : nat) (s : string) :
  (n < String.length s)%nat → (0 < m)%nat → String.substring n m s ≠ "".
Proof.
  revert n. induction s as [|x s IH]; intros [|n] Hn Hm; simpl in *; try lia.
  - destruct m; [lia | done].
  - apply IH; lia.
Qed.

Lemma generateJobId_length (rnd36 : string) :
  (String.length (generateJobId rnd36) ≤ 8)%nat.
Proof. apply substring_length_le. Qed.

Lemma generateJobId_nonempty (rnd36 : string) :
  (2 < String.length rnd36)%nat → generateJobId rnd36 ≠ "".
Proof. intros H. apply substring_nonempty; lia. Qed.

(** ** The job table *)

Lemma get_job_status_unknown (jobId : string) (s : Server) :
  backgroundJobs s !! jobId = None →
  get_job_status jobId s = (s, Thrown ("Job not found: " +:+ jobId)).
Proof. intros H. unfold get_job_status. by rewrite H. Qed.

Lemma get_job_status_completed (jobId : string) (s : Server) (r : JobRef)
    (job : BackgroundJob) (code : Z) :
  backgroundJobs s !! jobId = Some r → heap s !! r = Some job →
  job_exitCode job = Some code →
  get_job_status jobId s =
    (mkServer (heap s) (delete jobId (backgroundJobs s)),
     Returned (mkStatusResult (job_stdout job) (job_stderr job) (Some code) false)).
Proof.
  intros Hid Hr Hcode. unfold get_job_status. rewrite Hid. simpl. rewrite Hr, Hcode.
  by rewrite bool_decide_eq_false_2.
Qed.

Lemma get_job_status_running (jobId : string) (s : Server) (r : JobRef)
    (job : BackgroundJob) :
  backgroundJobs s !! jobId = Some r → heap s !! r = Some job →
  job_exitCode job = None →
  get_job_status jobId s =
    (s, Returned (mkStatusResult (job_stdout job) (job_stderr job) None true)).
Proof.
  intros Hid Hr Hcode. unfold get_job_status. rewrite Hid. simpl. rewrite Hr, Hcode.
  by rewrite bool_decide_eq_true_2.
Qed.

(** A poll never adds an entry to the table. *)
Lemma get_job_status_table (jobId jobId' : string) (s : Server) :
  backgroundJobs s !! jobId' = None →
  backgroundJobs (get_job_status jobId s).1 !! jobId' = None.
Proof.
  intros H. unfold get_job_status.
  destruct (backgroundJobs s !! jobId ≫= _) as [job|]; simpl; [|done].
  case_bool_decide; simpl; [done|].
  rewrite lookup_delete. by case_decide.
Qed.

(** Only a background call that draws the id [jobId] enters it in the
    table. *)
Lemma op_step_table (o : Op) (jobId : string) (s : Server) :
  backgroundJobs s !! jobId = None → jobId ∉ issued [o] →
  backgroundJobs (op_step s o) !! jobId = None.
Proof.
  intros H Hfresh. destruct o as [cmd rnd36 child now|r ev|jobId']; simpl.
  - rewrite lookup_insert_ne; [done|].
    intros <-. apply Hfresh. simpl. constructor.
  - done.
  - by apply get_job_status_table.
Qed.

Lemma issued_cons (o : Op) (ops : list Op) : issued (o :: ops) = issued [o] ++ issued ops.
Proof. by destruct o. Qed.

Lemma op_run_table (ops : list Op) (jobId : string) (s : Server) :
  backgroundJobs s !! jobId = None → jobId ∉ issued ops →
  backgroundJobs (op_run ops s) !! jobId = None.
Proof.
  revert s. induction ops as [|o ops IH]; intros s H Hfresh; [done|].
  rewrite issued_cons in Hfresh. apply not_elem_of_app in Hfresh as [Ho Hops].
  unfold op_run. simpl. apply IH; [|done]. by apply op_step_table.
Qed.

(** C1: the first [get_job_status] for a job whose exit code is set
    returns the accumulated stdout and stderr of the job object,
    [running: false] and that exit code, and the same call deletes the
    id from the table; from then on, whatever happens to the server
    short of a background call drawing the same id again, a
    [get_job_status] for the id throws the job-not-found error; so does
    a call for an id that no background call of the history has
    issued. *)
Theorem completed_job_is_read_once (s : Server) (jobId : string) (r : JobRef)
    (job : BackgroundJob) (code : Z) :
  backgroundJobs s !! jobId = Some r → heap s !! r = Some job →
  job_exitCode job = Some code →
  let s' := (get_job_status jobId s).1 in
  (get_job_status jobId s).2 =
    Returned (mkStatusResult (job_stdout job) (job_stderr job) (Some code) false)
  ∧ backgroundJobs s' = delete jobId (backgroundJobs s)
  ∧ heap s' = heap s
  ∧ (∀ later, jobId ∉ issued later →
       get_job_status jobId (op_run later s') =
         (op_run later s', Thrown ("Job not found: " +:+ jobId)))
  ∧ (∀ history unknown, unknown ∉ issued history →
       get_job_status unknown (op_run history initial) =
         (op_run history initial, Thrown ("Job not found: " +:+ unknown))).
Proof.
  intros Hid Hr Hcode s'. subst s'.
  rewrite (get_job_status_completed jobId s r job code) by done. simpl.
  repeat split.
  - intros later Hlater. apply get_job_status_unknown, op_run_table; [|done].
    simpl. apply lookup_delete_eq.
  - intros history unknown Hunknown.
    apply get_job_status_unknown, op_run_table; [|done]. apply lookup_empty.
Qed.

(** Every reference in the table points to an allocated job object:
    the lookup of the object in [get_job_status] cannot fail. *)
Lemma op_step_refs (o : Op) (s : Server) :
  (∀ jobId r, backgroundJobs s !! jobId = Some r → (r < length (heap s))%nat) →
  ∀ jobId r, backgroundJobs (op_step s o) !! jobId = Some r →
             (r < length (heap (op_step s o)))%nat.
Proof.
  intros Hinv jobId r.
  destruct o as [cmd rnd36 child now|r' ev|jobId']; simpl.
  - rewrite length_app. simpl. rewrite lookup_insert. case_decide.
    + intros [= <-]. lia.
    + intros H'. apply Hinv in H'. lia.
  - rewrite length_alter. apply Hinv.
  - unfold get_job_status.
    destruct (backgroundJobs s !! jobId' ≫= _); simpl; [|apply Hinv].
    case_bool_decide; simpl; [apply Hinv|].
    rewrite lookup_delete. case_decide; [done|apply Hinv].
Qed.

Lemma op_run_refs (ops : list Op) (s : Server) :
  (∀ jobId r, backgroundJobs s !! jobId = Some r → (r < length (heap s))%nat) →
  ∀ jobId r, backgroundJobs (op_run ops s) !! jobId = Some r →
             (r < length (heap (op_run ops s)))%nat.
Proof.
  revert s. induction ops as [|o ops IH]; intros s Hs; [done|].
  change (op_run (o :: ops) s) with (op_run ops (op_step s o)).
  by apply IH, op_step_refs.
Qed.

Lemma table_refs_allocated (history : list Op) (jobId : string) (r : JobRef) :
  backgroundJobs (op_run history initial) !! jobId = Some r →
  (r < length (heap (op_run history initial)))%nat.
Proof. apply op_run_refs. intros jobId' r'. simpl. by rewrite lookup_empty. Qed.

(** ** Polling a running job *)

Lemma poll_running_fixpoint (s : Server) (jobId : string) (r : JobRef)
    (job : BackgroundJob) (n : nat) :
  backgroundJobs s !! jobId = Some r → heap s !! r = Some job →
  job_exitCode job = None →
  op_run (replicate n (OpStatus jobId)) s = s.
Proof.
  intros Hid Hr Hcode. induction n as [|n IH]; [done|].
  unfold op_run in *. simpl.
  by rewrite (get_job_status_running jobId s r job).
Qed.

Lemma quiet_step_keeps_running (o : Op) (s : Server) (jobId : string) (r : JobRef) :
  quiet o = true →
  backgroundJobs s !! jobId = Some r →
  (∃ job, heap s !! r = Some job ∧ job_exitCode job = None) →
  backgroundJobs (op_step s o) !! jobId = Some r
  ∧ ∃ job, heap (op_step s o) !! r = Some job ∧ job_exitCode job = None.
Proof.
  intros Hq Hid (job & Hr & Hcode).
  destruct o as [cmd rnd36 child now|r' ev|jobId']; simpl in *; [done| |].
  - split; [done|]. rewrite list_lookup_alter.
    case_decide as Hrr; [subst r'|eauto]. rewrite Hr. simpl.
    eexists; split; [done|]. by destruct ev.
  - unfold get_job_status.
    destruct (backgroundJobs s !! jobId' ≫= _) as [job'|] eqn:Hjob'; simpl; [|eauto].
    case_bool_decide as Hrun; simpl; [eauto|].
    split; [|eauto]. rewrite lookup_delete_ne; [done|].
    intros ->. rewrite Hid in Hjob'. simpl in Hjob'. congruence.
Qed.

Lemma quiet_run_keeps_running (ops : list Op) (s : Server) (jobId : string) (r : JobRef) :
  forallb quiet ops = true →
  backgroundJobs s !! jobId = Some r →
  (∃ job, heap s !! r = Some job ∧ job_exitCode job = None) →
  ∃ job, get_job_status jobId (op_run ops s) =
           (op_run ops s,
            Returned (mkStatusResult (job_stdout job) (job_stderr job) None true)).
Proof.
  revert s. induction ops as [|o ops IH]; intros s Hq Hid Hjob.
  - destruct Hjob as (job & Hr & Hcode). exists job.
    by apply (get_job_status_running jobId s r job).
  - simpl in Hq. apply andb_true_iff in Hq as [Ho Hops].
    destruct (quiet_step_keeps_running o s jobId r Ho Hid Hjob) as [Hid' Hjob'].
    unfold op_run. simpl. by apply IH.
Qed.

(** C6: while the exit code of a job is absent, any number of
    [get_job_status] calls with its id return [running: true] with the
    exit code absent and leave the server as it was, the job still
    entered under the same id. *)
Theorem polling_a_running_job_is_idempotent (s : Server) (jobId : string)
    (r : JobRef) (job : BackgroundJob) :
  backgroundJobs s !! jobId = Some r → heap s !! r = Some job →
  job_exitCode job = None →
  ∀ n : nat,
    let s_n := op_run (replicate n (OpStatus jobId)) s in
    get_job_status jobId s_n =
      (s, Returned (mkStatusResult (job_stdout job) (job_stderr job) None true))
    ∧ s_n = s
    ∧ backgroundJobs s_n !! jobId = Some r.
Proof.
  intros Hid Hr Hcode n s_n. subst s_n.
  rewrite (poll_running_fixpoint s jobId r job n) by done.
  split; [|done]. by apply (get_job_status_running jobId s r job).
Qed.

(** ** Starting a background job *)

(** C7, as the code has it: a background [execute] returns at once,
    before any event of the child is handled: the result is returned,
    not thrown, the job it registers under the id still has empty
    accumulators and no exit code; the id is
    the at most eight characters cut from the rendering of the random
    number, non-empty when that rendering has a fractional digit; [pid]
    is the pid of the child when [spawn] gave it one, positive when
    that pid is, and [0] when the child has none. *)
Theorem background_execute_returns_at_once (args : ExecuteArgs) (rnd36 : string)
    (child : ChildProcess) (now : Z) (s : Server) :
  background args = Some true →
  ∃ s',
    execute args rnd36 child now s =
      InBackground s' (Returned (mkBackgroundResult (generateJobId rnd36)
                                                     (nullish (pid child) 0)))
    ∧ backgroundJobs s' !! generateJobId rnd36 = Some (length (heap s))
    ∧ heap s' !! length (heap s) = Some (mkJob child "" "" None now)
    ∧ (String.length (generateJobId rnd36) ≤ 8)%nat
    ∧ ((2 < String.length rnd36)%nat → generateJobId rnd36 ≠ "")
    ∧ (∀ p, pid child = Some p → 0 < p → 0 < nullish (pid child) 0)
    ∧ (pid child = None → nullish (pid child) 0 = 0).
Proof.
  intros Hbg. unfold execute, truthy. rewrite Hbg. simpl.
  eexists. split; [reflexivity|]. simpl. repeat split.
  - apply lookup_insert_eq.
  - rewrite lookup_app_r by lia. by rewrite Nat.sub_diag.
  - apply generateJobId_length.
  - apply generateJobId_nonempty.
  - by intros p -> Hp.
  - by intros ->.
Qed.

(** ** The exit code of a job *)

(** C10: a ['close'] with a [null] code records the exit code [1], the
    value the ['error'] callback records, and the job object, hence
    every later status result, is the one a command that exited with
    status [1] leaves. *)
Theorem null_close_code_is_recorded_as_one (job : BackgroundJob) :
  job_exitCode (job_on_event (Close None) job) = Some 1
  ∧ (∀ message, job_exitCode (job_on_event (Error message) job) = Some 1)
  ∧ job_on_event (Close None) job = job_on_event (Close (Some 1)) job
  ∧ ∀ (s : Server) (r : JobRef) (jobId : string),
      get_job_status jobId (deliver r (Close None) s) =
      get_job_status jobId (deliver r (Close (Some 1)) s).
Proof. repeat split. Qed.

(** ** The life of a job object *)

Lemma job_run_cons (ev : ChildEvent) (evs : list ChildEvent) (job : BackgroundJob) :
  job_run (ev :: evs) job = job_run evs (job_on_event ev job).
Proof. reflexivity. Qed.

Lemma job_run_app (pre post : list ChildEvent) (job : BackgroundJob) :
  job_run (pre ++ post) job = job_run post (job_run pre job).
Proof. apply foldl_app. Qed.

(** No callback assigns [null]. *)
Lemma job_on_event_keeps_code (ev : ChildEvent) (job : BackgroundJob) :
  is_Some (job_exitCode job) → is_Some (job_exitCode (job_on_event ev job)).
Proof. destruct ev; simpl; eauto. Qed.

Lemma job_run_keeps_code (evs : list ChildEvent) (job : BackgroundJob) :
  is_Some (job_exitCode job) → is_Some (job_exitCode (job_run evs job)).
Proof.
  revert job. induction evs as [|ev evs IH]; intros job H; [done|].
  apply IH, job_on_event_keeps_code, H.
Qed.

Lemma settlements_settled (evs : list ChildEvent) (job : BackgroundJob) :
  is_Some (job_exitCode job) → settlements evs job = 0%nat.
Proof.
  revert job. induction evs as [|ev evs IH]; intros job H; [done|].
  simpl. rewrite IH by by apply job_on_event_keeps_code.
  rewrite bool_decide_eq_false_2; [done|].
  intros [Hnone _]. rewrite Hnone in H. by destruct H.
Qed.

Lemma settlements_at_most_one (evs : list ChildEvent) (job : BackgroundJob) :
  (settlements evs job ≤ 1)%nat.
Proof.
  revert job. induction evs as [|ev evs IH]; intros job; simpl; [lia|].
  case_bool_decide as Hstep.
  - destruct Hstep as [_ Hsome].
    rewrite settlements_settled; [lia|].
    by destruct (job_exitCode (job_on_event ev job)).
  - specialize (IH (job_on_event ev job)). lia.
Qed.

Lemma settlements_terminal (evs : list ChildEvent) (job : BackgroundJob) :
  job_exitCode job = None → existsb is_terminal evs = true →
  settlements evs job = 1%nat.
Proof.
  revert job. induction evs as [|ev evs IH]; intros job Hnone Hterm; [done|].
  simpl in *. destruct ev as [data|data|code|message]; simpl in *.
  - rewrite bool_decide_eq_false_2 by (intros [_ H]; by apply H). by rewrite IH.
  - rewrite bool_decide_eq_false_2 by (intros [_ H]; by apply H). by rewrite IH.
  - rewrite bool_decide_eq_true_2 by done. by rewrite settlements_settled.
  - rewrite bool_decide_eq_true_2 by done. by rewrite settlements_settled.
Qed.

Lemma orderly_from_app (p : Phase) (pre post : list ChildEvent) :
  orderly_from p (pre ++ post) = true → orderly_from p pre = true.
Proof.
  revert p. induction pre as [|ev pre IH]; intros p H; [done|].
  simpl in *. destruct (phase_step p ev); [by apply IH | done].
Qed.

(** Once the child has failed or closed, what may still follow leaves
    the accumulators alone. *)
Lemma settled_phase_accumulators (evs : list ChildEvent) (p : Phase)
    (job : BackgroundJob) :
  p ≠ Streaming → orderly_from p evs = true →
  job_stdout (job_run evs job) = job_stdout job
  ∧ job_stderr (job_run evs job) = job_stderr job.
Proof.
  revert p job. induction evs as [|ev evs IH]; intros p job Hp Hord; [done|].
  simpl in Hord.
  destruct p; [done| |]; destruct ev as [data|data|code|message]; try done.
  simpl in Hord. rewrite job_run_cons.
  destruct (IH Closed (job_on_event (Close code) job)) as [-> ->]; done.
Qed.

Lemma orderly_accumulators (pre post : list ChildEvent) (job : BackgroundJob) :
  job_exitCode job = None → orderly_from Streaming (pre ++ post) = true →
  is_Some (job_exitCode (job_run pre job)) →
  job_stdout (job_run (pre ++ post) job) = job_stdout (job_run pre job)
  ∧ job_stderr (job_run (pre ++ post) job) = job_stderr (job_run pre job).
Proof.
  revert job. induction pre as [|ev pre IH]; intros job Hnone Hord Hsome.
  - simpl in Hsome. rewrite Hnone in Hsome. by destruct Hsome.
  - simpl in Hord.
    destruct ev as [data|data|code|message]; simpl in Hord.
    + by apply IH.
    + by apply IH.
    + rewrite <- app_comm_cons, !job_run_cons.
      destruct (settled_phase_accumulators (pre ++ post) Closed
                  (job_on_event (Close code) job)) as [-> ->]; [done..|].
      destruct (settled_phase_accumulators pre Closed
                  (job_on_event (Close code) job)) as [-> ->];
        [done|by eapply orderly_from_app|done].
    + rewrite <- app_comm_cons, !job_run_cons.
      destruct (settled_phase_accumulators (pre ++ post) Failed
                  (job_on_event (Error message) job)) as [-> ->]; [done..|].
      destruct (settled_phase_accumulators pre Failed
                  (job_on_event (Error message) job)) as [-> ->];
        [done|by eapply orderly_from_app|done].
Qed.

(** C4: over any sequence of events of its child, the exit code of a
    job goes from absent to present at most once, and exactly once
    when the sequence holds a ['close'] or an ['error']; once present
    it stays present; and when the events come in the order the child
    emits them, the accumulators are the same ever after. *)
Theorem exit_code_is_set_once (job : BackgroundJob) (evs : list ChildEvent) :
  job_exitCode job = None →
  (settlements evs job ≤ 1)%nat
  ∧ (existsb is_terminal evs = true → settlements evs job = 1%nat)
  ∧ (∀ pre post, evs = pre ++ post →
       is_Some (job_exitCode (job_run pre job)) →
       is_Some (job_exitCode (job_run evs job)))
  ∧ (orderly evs = true →
     ∀ pre post, evs = pre ++ post →
       is_Some (job_exitCode (job_run pre job)) →
       job_stdout (job_run evs job) = job_stdout (job_run pre job)
       ∧ job_stderr (job_run evs job) = job_stderr (job_run pre job)).
Proof.
  intros Hnone. split; [apply settlements_at_most_one|].
  split; [by apply settlements_terminal|]. split.
  - intros pre post -> Hsome. rewrite job_run_app. by apply job_run_keeps_code.
  - intros Hord pre post -> Hsome. by apply orderly_accumulators.
Qed.

(** The callbacks of a child are the only writers of its job object:
    after a history, the object [r] is what the events addressed to it
    made of it, whether the table still holds it or not. *)
Lemma op_step_heap (o : Op) (s : Server) (r : JobRef) :
  (r < length (heap s))%nat →
  (r < length (heap (op_step s o)))%nat
  ∧ heap (op_step s o) !! r = job_run (events_for r [o]) <$> heap s !! r.
Proof.
  intros Hr. destruct (lookup_lt_is_Some_2 _ _ Hr) as [job Hjob].
  destruct o as [cmd rnd36 child now|r' ev|jobId]; simpl.
  - rewrite length_app, lookup_app_l, Hjob by done. split; [lia|done].
  - rewrite length_alter, list_lookup_alter. split; [done|].
    unfold events_for. simpl.
    case_decide; case_bool_decide; simplify_eq; by rewrite Hjob.
  - unfold get_job_status.
    destruct (backgroundJobs s !! jobId ≫= _); simpl; [|by rewrite Hjob].
    case_bool_decide; simpl; by rewrite Hjob.
Qed.

Lemma events_for_cons (r : JobRef) (o : Op) (ops : list Op) :
  events_for r (o :: ops) = events_for r [o] ++ events_for r ops.
Proof.
  unfold events_for. simpl. destruct o; simpl; try done. by case_bool_decide.
Qed.

Lemma op_run_heap (ops : list Op) (s : Server) (r : JobRef) :
  (r < length (heap s))%nat →
  heap (op_run ops s) !! r = job_run (events_for r ops) <$> heap s !! r.
Proof.
  revert s. induction ops as [|o ops IH]; intros s Hr.
  - simpl. by destruct (heap s !! r).
  - destruct (op_step_heap o s r Hr) as [Hr' Hstep].
    rewrite events_for_cons.
    change (op_run (o :: ops) s) with (op_run ops (op_step s o)).
    rewrite IH, Hstep by done. destruct (heap s !! r) as [job|]; [|done].
    unfold fmap, option_fmap, option_map. by rewrite job_run_app.
Qed.

Lemma events_for_own (r : JobRef) (evs : list ChildEvent) :
  events_for r (map (OpEvent r) evs) = evs.
Proof.
  induction evs as [|ev evs IH]; [done|].
  change (map (OpEvent r) (ev :: evs)) with (OpEvent r ev :: map (OpEvent r) evs).
  rewrite events_for_cons, IH. unfold events_for. simpl.
  by rewrite bool_decide_eq_true_2.
Qed.

Lemma op_run_events_table (r : JobRef) (evs : list ChildEvent) (s : Server) :
  backgroundJobs (op_run (map (OpEvent r) evs) s) = backgroundJobs s.
Proof.
  revert s. induction evs as [|ev evs IH]; intros s; [done|].
  simpl. change (op_run (OpEvent r ev :: map (OpEvent r) evs) s)
    with (op_run (map (OpEvent r) evs) (deliver r ev s)).
  by rewrite IH.
Qed.

(** The accumulators of a job hold the text of the events of its
    child, in the order of arrival. *)
Lemma job_run_output (evs : list ChildEvent) (job : BackgroundJob) :
  forallb is_data evs = true →
  job_stdout (job_run evs job) = job_stdout job +:+ stdout_of evs
  ∧ job_stderr (job_run evs job) = job_stderr job +:+ stderr_of evs
  ∧ job_exitCode (job_run evs job) = job_exitCode job.
Proof.
  revert job. induction evs as [|ev evs IH]; intros job Hdata.
  - simpl. by rewrite !string_app_nil_r.
  - simpl in Hdata. apply andb_true_iff in Hdata as [Hev Hevs].
    rewrite job_run_cons. destruct (IH (job_on_event ev job) Hevs) as (-> & -> & ->).
    destruct ev as [data|data|code|message]; simpl in *; try done;
      by rewrite ?string_app_assoc.
Qed.

(** X3: a background job from its start to its first status read: the
    command writes, exits with [code], and the poll returns all that
    was written, [running: false] and [code], and drops the job. *)
Lemma background_job_end_to_end (s : Server) (cmd rnd36 : string)
    (child : ChildProcess) (now code : Z) (output : list ChildEvent) :
  forallb is_data output = true →
  let r := length (heap s) in
  let s' := op_run (OpExecute cmd rnd36 child now ::
                    map (OpEvent r) (output ++ [Close (Some code)])) s in
  get_job_status (generateJobId rnd36) s' =
    (mkServer (heap s') (delete (generateJobId rnd36) (backgroundJobs s')),
     Returned (mkStatusResult (stdout_of output) (stderr_of output) (Some code) false)).
Proof.
  intros Hdata r s'. subst r s'.
  set (job0 := mkJob child "" "" None now).
  set (evs := output ++ [Close (Some code)]).
  set (s1 := op_step s (OpExecute cmd rnd36 child now)).
  change (op_run (OpExecute cmd rnd36 child now :: map (OpEvent (length (heap s))) evs) s)
    with (op_run (map (OpEvent (length (heap s))) evs) s1).
  assert (heap s1 !! length (heap s) = Some job0) as Hjob0.
  { subst s1. simpl. rewrite lookup_app_r by lia. by rewrite Nat.sub_diag. }
  destruct (job_run_output output job0 Hdata) as (Hout & Herr & Hcode).
  rewrite (get_job_status_completed (generateJobId rnd36) _ (length (heap s))
             (job_run evs job0) code).
  - subst evs. rewrite job_run_app. simpl. by rewrite Hout, Herr.
  - rewrite op_run_events_table. subst s1. simpl. apply lookup_insert_eq.
  - rewrite op_run_heap, events_for_own, Hjob0; [done|].
    by apply lookup_lt_Some in Hjob0.
  - subst evs. by rewrite job_run_app.
Qed.

(** ** One foreground call: output, promise and timers *)

Lemma fg_run_app (pre post : list (Z * ChildEvent)) (c : Foreground) :
  fg_run (pre ++ post) c = fg_run post (fg_run pre c).
Proof. apply foldl_app. Qed.

Lemma fg_run_cons (tev : Z * ChildEvent) (trace : list (Z * ChildEvent)) (c : Foreground) :
  fg_run (tev :: trace) c = fg_run trace (fg_step c tev).
Proof. reflexivity. Qed.

(** The timers touch neither the accumulators nor the promise. *)
Lemma advance_fields (t : Z) (c : Foreground) :
  fg_timeout (advance t c) = fg_timeout c
  ∧ fg_stdout (advance t c) = fg_stdout c
  ∧ fg_stderr (advance t c) = fg_stderr c
  ∧ fg_promise (advance t c) = fg_promise c.
Proof.
  unfold advance. destruct (fg_timeoutId c) as [|due| |]; simpl;
    repeat case_bool_decide; simpl;
    destruct (fg_killTimer c) as [|k| |]; simpl;
    repeat case_bool_decide; done.
Qed.

(** [resolve] on a settled promise is lost. *)
Lemma promise_settles_once (trace : list (Z * ChildEvent)) (c : Foreground)
    (res : ExecuteResult) :
  fg_promise c = Some res → fg_promise (fg_run trace c) = Some res.
Proof.
  revert c. induction trace as [|[t ev] trace IH]; intros c H; [done|].
  rewrite fg_run_cons. apply IH. unfold fg_step. simpl.
  destruct (advance_fields t c) as (_ & _ & _ & Hp).
  destruct ev; simpl; rewrite Hp, H; done.
Qed.

(** Output events only append their text. *)
Lemma fg_run_output (pre : list (Z * ChildEvent)) (c : Foreground) :
  forallb (λ tev, is_data tev.2) pre = true →
  fg_stdout (fg_run pre c) = fg_stdout c +:+ stdout_of pre.*2
  ∧ fg_stderr (fg_run pre c) = fg_stderr c +:+ stderr_of pre.*2
  ∧ fg_promise (fg_run pre c) = fg_promise c.
Proof.
  revert c. induction pre as [|[t ev] pre IH]; intros c Hdata.
  - simpl. by rewrite !string_app_nil_r.
  - simpl in Hdata. apply andb_true_iff in Hdata as [Hev Hpre].
    rewrite fg_run_cons. destruct (IH (fg_step c (t, ev)) Hpre) as (-> & -> & ->).
    destruct (advance_fields t c) as (_ & Ho & He & Hp).
    unfold fg_step.
    destruct ev as [data|data|code|message]; simpl in *; try done;
      rewrite Ho, He, Hp, ?string_app_assoc; done.
Qed.

(** The clock only moves forward. *)
Lemma advance_advance (t t' : Z) (c : Foreground) :
  timers_ok c = true → t ≤ t' → advance t' (advance t c) = advance t' c.
Proof.
  intros Hok Hle. unfold advance, timers_ok in *.
  destruct c as [tm out err timed [|due| |] [|k| |] kills promise]; simpl in *;
    repeat (case_bool_decide; simpl); try reflexivity; try lia; try done.
Qed.

Lemma timers_ok_step (c : Foreground) (tev : Z * ChildEvent) :
  timers_ok c = true → timers_ok (fg_step c tev) = true.
Proof.
  destruct tev as [t ev]. unfold fg_step, advance, timers_ok.
  destruct c as [tm out err timed [|due| |] [|k| |] kills promise]; simpl;
    repeat (case_bool_decide; simpl); destruct ev; simpl; done.
Qed.

Lemma advance_with_output (t : Z) (out err : string) (c : Foreground) :
  advance t (with_output out err c) = with_output out err (advance t c).
Proof.
  unfold advance, with_output.
  destruct c as [tm o e timed [|due| |] [|k| |] kills promise]; simpl;
    repeat (case_bool_decide; simpl); reflexivity.
Qed.

Lemma with_output_with_output (out err out' err' : string) (c : Foreground) :
  with_output out' err' (with_output out err c) =
  with_output (out +:+ out') (err +:+ err') c.
Proof. unfold with_output. simpl. by rewrite !string_app_assoc. Qed.

(** When the clock has reached [tc], the output events that came by
    then have appended their text and the timers are where the clock
    alone would have put them. *)
Lemma fg_run_data_until (tc : Z) (pre : list (Z * ChildEvent)) (c : Foreground) :
  timers_ok c = true → data_until tc pre = true →
  advance tc (fg_run pre c) =
  with_output (stdout_of pre.*2) (stderr_of pre.*2) (advance tc c).
Proof.
  revert c. induction pre as [|[t ev] pre IH]; intros c Hok Hpre.
  - simpl. unfold with_output. rewrite !string_app_nil_r. by destruct (advance tc c).
  - unfold data_until in Hpre. simpl in Hpre.
    apply andb_true_iff in Hpre as [Hev Hpre].
    apply andb_true_iff in Hev as [Hev Ht]. apply bool_decide_eq_true in Ht.
    rewrite fg_run_cons, IH by (done || by apply timers_ok_step).
    assert (fg_step c (t, ev) =
            with_output (stdout_of [ev]) (stderr_of [ev]) (advance t c)) as ->.
    { unfold fg_step, with_output.
      destruct ev as [data|data|code|message]; simpl in *; try done;
        by rewrite !string_app_nil_r. }
    rewrite advance_with_output, advance_advance, with_output_with_output by done.
    destruct ev as [data|data|code|message]; simpl in *; try done;
      by rewrite ?string_app_nil_r.
Qed.

(** The state in which a ['close'] at time [tc] finds a call whose
    child only produced output until then. *)
Lemma fg_run_close (now timeout tc : Z) (code : option Z) (pre : list (Z * ChildEvent)) :
  data_until tc pre = true →
  fg_run (pre ++ [(tc, Close code)]) (start_foreground now timeout) =
  fg_on_event (Close code)
    (with_output (stdout_of pre.*2) (stderr_of pre.*2)
       (advance tc (start_foreground now timeout))).
Proof.
  intros Hpre. rewrite fg_run_app. simpl. unfold fg_step. simpl.
  by rewrite fg_run_data_until.
Qed.

Lemma advance_before_deadline (now timeout t : Z) :
  t < now + setTimeout_delay timeout →
  advance t (start_foreground now timeout) = start_foreground now timeout.
Proof.
  intros H. unfold advance. simpl. by rewrite bool_decide_eq_false_2 by lia.
Qed.

Lemma advance_in_grace (now timeout t : Z) :
  now + setTimeout_delay timeout ≤ t → t < now + setTimeout_delay timeout + 1000 →
  advance t (start_foreground now timeout) =
  mkForeground timeout "" "" true Fired
               (Pending (now + setTimeout_delay timeout + 1000))
               [(now + setTimeout_delay timeout, SIGTERM)] None.
Proof.
  intros H1 H2. unfold advance. simpl. rewrite bool_decide_eq_true_2 by lia.
  simpl. by rewrite bool_decide_eq_false_2 by lia.
Qed.

Lemma advance_after_grace (now timeout t : Z) :
  now + setTimeout_delay timeout + 1000 ≤ t →
  advance t (start_foreground now timeout) =
  mkForeground timeout "" "" true Fired Fired
               [(now + setTimeout_delay timeout, SIGTERM);
                (now + setTimeout_delay timeout + 1000, SIGKILL)] None.
Proof.
  intros H. unfold advance. simpl. rewrite bool_decide_eq_true_2 by lia.
  simpl. by rewrite bool_decide_eq_true_2 by lia.
Qed.

Lemma timed_out_note (err n : string) :
  includes "timed out" (err +:+ LF +:+ "Process timed out after " +:+ n +:+ "ms").
Proof.
  apply includes_app_l, includes_app_l.
  by exists "Process ", (" after " +:+ n +:+ "ms").
Qed.

(** C9, as the code has it: a foreground call without [timeout] works
    with 5000 ms, a call with [timeout] with that value: it is the
    delay handed to [setTimeout] and the number printed in the
    timed-out note.  For a value from 1 to 2147483647, as 5000 is, the
    timer is due exactly that long after the start; for a value outside
    that range it is due 1 ms after the start.  Nothing is signalled
    before the timer is due, and the call is timed out once the clock
    is there. *)
Theorem deadline_is_the_timeout_or_5000 (args : ExecuteArgs) (rnd36 : string)
    (child : ChildProcess) (now : Z) (s : Server) :
  truthy (background args) = false →
  ∃ c, execute args rnd36 child now s = InForeground c
       ∧ (timeout args = None →
          fg_timeout c = 5000 ∧ fg_timeoutId c = Pending (now + 5000))
       ∧ (∀ t, timeout args = Some t →
          fg_timeout c = t
          ∧ fg_timeoutId c = Pending (now + setTimeout_delay t)
          ∧ (1 ≤ t ≤ TIMEOUT_MAX → fg_timeoutId c = Pending (now + t))
          ∧ (¬ (1 ≤ t ≤ TIMEOUT_MAX) → fg_timeoutId c = Pending (now + 1)))
       ∧ (∀ t', t' < now + setTimeout_delay (nullish (timeout args) 5000) →
          advance t' c = c)
       ∧ (∀ t', now + setTimeout_delay (nullish (timeout args) 5000) ≤ t' →
          fg_timedOut (advance t' c) = true
          ∧ head (fg_kills (advance t' c)) =
              Some (now + setTimeout_delay (nullish (timeout args) 5000), SIGTERM)).
Proof.
  intros Hfg. unfold execute. rewrite Hfg. eexists. split; [reflexivity|].
  unfold DEFAULT_TIMEOUT. split; [|split; [|split]].
  - by intros ->.
  - intros t ->. split; [done|]. split; [done|]. split.
    + intros Ht. unfold start_foreground, setTimeout_delay.
      simpl. by rewrite bool_decide_eq_true_2.
    + intros Ht. unfold start_foreground, setTimeout_delay.
      simpl. by rewrite bool_decide_eq_false_2.
  - intros t' Ht'. by apply advance_before_deadline.
  - intros t' Ht'.
    destruct (decide (t' < now + setTimeout_delay (nullish (timeout args) 5000) + 1000)).
    + by rewrite advance_in_grace.
    + by rewrite advance_after_grace by lia.
Qed.


(** C2: for a child that is still running at the deadline, the handler
    calls [kill('SIGTERM')] at the deadline and [kill('SIGKILL')] 1000
    ms later, as long as no ['close'] has come; and the ['close'] that
    comes at or after the deadline resolves the call with exit code 124
    and the stderr read so far followed by a note that contains
    [timed out]. *)
Theorem timeout_terminates_then_kills (now timeout tc : Z) (code : option Z)
    (pre : list (Z * ChildEvent)) :
  data_until tc pre = true → now + setTimeout_delay timeout ≤ tc →
  let deadline := now + setTimeout_delay timeout in
  let running := fg_run pre (start_foreground now timeout) in
  let c := fg_run (pre ++ [(tc, Close code)]) (start_foreground now timeout) in
  let stderr := stderr_of pre.*2 +:+ LF +:+ "Process timed out after "
                +:+ numberToString timeout +:+ "ms" in
  fg_kills (advance tc running) =
    (deadline, SIGTERM) ::
    (if bool_decide (deadline + 1000 ≤ tc) then [(deadline + 1000, SIGKILL)] else [])
  ∧ fg_promise c = Some (mkExecuteResult (stdout_of pre.*2) stderr 124)
  ∧ includes "timed out" stderr
  ∧ (∀ t, deadline + 1000 ≤ t →
       fg_kills (advance t c) = [(deadline, SIGTERM); (deadline + 1000, SIGKILL)]).
Proof.
  intros Hpre Htc deadline running c stderr. subst deadline running c stderr.
  rewrite fg_run_close, fg_run_data_until by done.
  split; [|split; [|split]].
  - case_bool_decide.
    + by rewrite advance_after_grace.
    + by rewrite advance_in_grace by lia.
  - destruct (decide (tc < now + setTimeout_delay timeout + 1000)).
    + by rewrite advance_in_grace.
    + by rewrite advance_after_grace by lia.
  - apply timed_out_note.
  - intros t Ht. destruct (decide (tc < now + setTimeout_delay timeout + 1000)).
    + rewrite advance_in_grace by done. unfold advance. simpl.
      by rewrite bool_decide_eq_true_2 by lia.
    + by rewrite advance_after_grace by lia.
Qed.


(** What the ['error'] event alone does: a failure to spawn is not
    thrown.  In the foreground, the
    ['error'] event resolves the call with exit code 1 and the stderr
    read so far followed by the error text, and nothing that follows
    changes the result.  In the background, the call has returned its
    [jobId] and [pid]; the ['error'] event appends the error text to
    the stderr of the job and sets its exit code to 1, and a
    [get_job_status] then returns that state. *)
Theorem spawn_failure_is_captured :
  (∀ (now timeout t : Z) (message : string) (pre post : list (Z * ChildEvent)),
     forallb (λ tev, is_data tev.2) pre = true →
     fg_promise (fg_run (pre ++ (t, Error message) :: post)
                        (start_foreground now timeout)) =
     Some (mkExecuteResult (stdout_of pre.*2)
             (stderr_of pre.*2 +:+ LF +:+ "Process error: " +:+ message) 1))
  ∧ (∀ (args : ExecuteArgs) (rnd36 : string) (child : ChildProcess) (now : Z)
       (s : Server) (message : string),
     background args = Some true →
     ∃ s1, execute args rnd36 child now s =
             InBackground s1 (Returned (mkBackgroundResult (generateJobId rnd36)
                                                            (nullish (pid child) 0)))
       ∧ let s2 := deliver (length (heap s)) (Error message) s1 in
         let failed := mkJob child "" (LF +:+ "Process error: " +:+ message)
                             (Some 1) now in
         heap s2 !! length (heap s) = Some failed
         ∧ (get_job_status (generateJobId rnd36) s2).2 =
             Returned (mkStatusResult "" (LF +:+ "Process error: " +:+ message)
                                      (Some 1) false)).
Proof.
  split.
  - intros now timeout t message pre post Hpre.
    rewrite fg_run_app, fg_run_cons. apply promise_settles_once.
    destruct (fg_run_output pre (start_foreground now timeout) Hpre) as (Ho & He & Hp).
    destruct (advance_fields t (fg_run pre (start_foreground now timeout)))
      as (_ & Ho' & He' & Hp').
    unfold fg_step. simpl. rewrite Ho', He', Hp', Ho, He, Hp. reflexivity.
  - intros args rnd36 child now s message Hbg.
    unfold execute, truthy. rewrite Hbg. simpl.
    eexists. split; [reflexivity|]. simpl.
    assert (alter (job_on_event (Error message)) (length (heap s))
              (heap s ++ [mkJob child "" "" None now]) !! length (heap s)
            = Some (mkJob child "" (LF +:+ "Process error: " +:+ message) (Some 1) now))
      as Hfailed.
    { rewrite list_lookup_alter, decide_True by done.
      rewrite lookup_app_r by lia. by rewrite Nat.sub_diag. }
    split; [done|].
    unfold get_job_status. simpl. rewrite lookup_insert_eq. simpl.
    by rewrite Hfailed.
Qed.

(** C8: on a failure to spawn the runtime emits ['error'] and then
    ['close'] with a code.  The background call has returned its
    [jobId] and [pid] and nothing is thrown; the ['error'] callback
    appends the error text to the stderr of the job and sets its exit
    code to 1, and the ['close'] callback then puts its own code in the
    place of the 1: the poll that follows returns the error text and
    the code of the ['close'], where the foreground call given the
    same two events resolves with exit code 1. *)
Theorem background_spawn_failure_ends_with_the_close_code (s : Server)
    (cmd rnd36 message : string) (child : ChildProcess) (now code t t' timeout : Z) :
  let r := length (heap s) in
  let s' := op_run [OpExecute cmd rnd36 child now;
                    OpEvent r (Error message);
                    OpEvent r (Close (Some code))] s in
  execute (mkArgs cmd None (Some true)) rnd36 child now s =
    InBackground (op_run [OpExecute cmd rnd36 child now] s)
      (Returned (mkBackgroundResult (generateJobId rnd36) (nullish (pid child) 0)))
  ∧ (get_job_status (generateJobId rnd36) s').2 =
      Returned (mkStatusResult "" (LF +:+ "Process error: " +:+ message)
                               (Some code) false)
  ∧ fg_promise (fg_run [(t, Error message); (t', Close (Some code))]
                       (start_foreground now timeout)) =
      Some (mkExecuteResult "" (LF +:+ "Process error: " +:+ message) 1).
Proof.
  intros r s'. subst r s'. split; [reflexivity|]. split.
  - unfold op_run. simpl. unfold get_job_status. simpl.
    rewrite lookup_insert_eq. simpl.
    rewrite !list_lookup_alter_eq.
    rewrite lookup_app_r by lia. by rewrite Nat.sub_diag.
  - change [(t, Error message); (t', Close (Some code))]
      with ([] ++ (t, Error message) :: [(t', Close (Some code))]).
    rewrite fg_run_app, fg_run_cons. apply promise_settles_once.
    unfold fg_step. simpl.
    by destruct (advance_fields t (start_foreground now timeout)) as (_ & -> & -> & ->).
Qed.

(** ** More on the job table *)

Lemma polled_cons (o : Op) (ops : list Op) : polled (o :: ops) = polled [o] ++ polled ops.
Proof. by destruct o. Qed.

(** An entry leaves the table, or changes, only through a poll of its
    id or a background call that draws its id. *)
Lemma op_step_table_kept (o : Op) (jobId : string) (s : Server) :
  jobId ∉ issued [o] → jobId ∉ polled [o] →
  backgroundJobs (op_step s o) !! jobId = backgroundJobs s !! jobId.
Proof.
  intros Hissued Hpolled. destruct o as [cmd rnd36 child now|r ev|jobId']; simpl.
  - rewrite lookup_insert_ne; [done|].
    intros <-. apply Hissued. simpl. constructor.
  - done.
  - unfold get_job_status.
    destruct (backgroundJobs s !! jobId' ≫= _); simpl; [|done].
    case_bool_decide; simpl; [done|].
    rewrite lookup_delete_ne; [done|].
    intros <-. apply Hpolled. simpl. constructor.
Qed.

Lemma op_run_table_kept (ops : list Op) (jobId : string) (s : Server) :
  jobId ∉ issued ops → jobId ∉ polled ops →
  backgroundJobs (op_run ops s) !! jobId = backgroundJobs s !! jobId.
Proof.
  revert s. induction ops as [|o ops IH]; intros s Hissued Hpolled; [done|].
  rewrite issued_cons in Hissued. apply not_elem_of_app in Hissued as [Hi Hissued].
  rewrite polled_cons in Hpolled. apply not_elem_of_app in Hpolled as [Hp Hpolled].
  change (op_run (o :: ops) s) with (op_run ops (op_step s o)).
  rewrite IH by done. by apply op_step_table_kept.
Qed.

(** X1: as long as its id is neither polled nor drawn again, a job
    stays in the table, whatever else happens on the server, and the
    poll that then comes returns the state that the events of its own
    child, and nothing else, have produced. *)
Theorem status_depends_on_own_events_only (s : Server) (jobId : string) (r : JobRef)
    (job : BackgroundJob) (ops : list Op) :
  backgroundJobs s !! jobId = Some r → heap s !! r = Some job →
  jobId ∉ issued ops → jobId ∉ polled ops →
  backgroundJobs (op_run ops s) !! jobId = Some r
  ∧ (get_job_status jobId (op_run ops s)).2 =
      Returned (snapshot (job_run (events_for r ops) job)).
Proof.
  intros Hid Hr Hissued Hpolled.
  assert (backgroundJobs (op_run ops s) !! jobId = Some r) as Hid'.
  { by rewrite op_run_table_kept. }
  split; [done|].
  unfold get_job_status. rewrite Hid'. simpl.
  rewrite op_run_heap by (by apply lookup_lt_Some in Hr). rewrite Hr. simpl.
  unfold snapshot. by case_bool_decide.
Qed.

(** X2: [backgroundJobs.set] does not look at what the table holds: a
    background call whose id is already in the table takes the entry
    over.  A poll of the id then shows the new job, running and with no
    output; the job object entered before stays in the store as it
    was, and no id of the table leads to it that did not before. *)
Theorem drawn_id_takes_over_the_entry (s : Server) (rnd36 : string)
    (child : ChildProcess) (now : Z) (before : JobRef) :
  backgroundJobs s !! generateJobId rnd36 = Some before →
  (before < length (heap s))%nat →
  let s' := (execute_background rnd36 child now s).1 in
  get_job_status (generateJobId rnd36) s' =
    (s', Returned (mkStatusResult "" "" None true))
  ∧ heap s' !! before = heap s !! before
  ∧ backgroundJobs s' !! generateJobId rnd36 ≠ Some before
  ∧ ∀ jobId, backgroundJobs s' !! jobId = Some before →
             backgroundJobs s !! jobId = Some before.
Proof.
  intros Hbefore Hlt s'. subst s'. simpl.
  assert ((heap s ++ [mkJob child "" "" None now]) !! length (heap s)
          = Some (mkJob child "" "" None now)) as Hnew.
  { rewrite lookup_app_r by lia. by rewrite Nat.sub_diag. }
  split; [|split; [|split]].
  - unfold get_job_status. simpl. rewrite lookup_insert_eq. simpl. by rewrite Hnew.
  - by rewrite lookup_app_l.
  - rewrite lookup_insert_eq. intros [= H]. lia.
  - intros jobId. rewrite lookup_insert. case_decide; [|done].
    intros [= Heq]. lia.
Qed.

(** X4: the [close] and [error] callbacks of a background job assign
    the exit code without looking at it: the code a job ends with is
    that of the last of these events, be it a ['close'] after an
    ['error']. *)
Theorem last_terminal_event_sets_the_code (job : BackgroundJob)
    (pre post : list ChildEvent) (ev : ChildEvent) :
  is_terminal ev = true → forallb is_data post = true →
  job_exitCode (job_run (pre ++ ev :: post) job) =
    match ev with
    | Close code => Some (nullish code 1)
    | _ => Some 1
    end.
Proof.
  intros Hev Hpost. rewrite job_run_app, job_run_cons.
  destruct (job_run_output post (job_on_event ev (job_run pre job)) Hpost)
    as (_ & _ & ->).
  by destruct ev.
Qed.

Lemma substring_length (n m : nat) (s : string) :
  String.length (String.substring n m s) = (m `min` (String.length s - n))%nat.
Proof.
  revert n m. induction s as [|x s IH]; intros [|n] [|m];
    cbn [String.substring String.length]; try lia.
  - rewrite (IH 0%nat m). lia.
  - rewrite (IH n 0%nat). lia.
  - rewrite (IH n (S m)). lia.
Qed.

(** X5: a job id is what the rendering of the random number has
    after its first two characters, cut at eight: it has
    [min 8 (length - 2)] characters, fewer than eight for a short
    rendering and none for one of at most two characters. *)
Theorem job_id_length (rnd36 : string) :
  String.length (generateJobId rnd36) = (8 `min` (String.length rnd36 - 2))%nat
  ∧ ((String.length rnd36 ≤ 2)%nat → generateJobId rnd36 = "")
  ∧ ∀ digits, generateJobId ("0." +:+ digits) = String.substring 0 8 digits.
Proof.
  split; [apply substring_length|]. split; [|done].
  intros Hshort. pose proof (substring_length 2 8 rnd36) as Hlen.
  unfold generateJobId. destruct (String.substring 2 8 rnd36); [done|].
  cbn [String.length] in Hlen. lia.
Qed.

(** ** More on one foreground call *)

Lemma advance_coherent (d t : Z) (c : Foreground) :
  timers_coherent d c → timers_coherent d (advance t c).
Proof.
  clear toString numberToString. unfold timers_coherent, advance.
  destruct c as [tm out err timed tid kid kills promise]. simpl.
  intros [([->| ->] & -> & -> & ->)|(-> & -> & [[-> ->]|[-> ->]])]; simpl;
    repeat (case_bool_decide; simpl); intuition eauto.
Qed.

Lemma fg_on_event_coherent (d : Z) (ev : ChildEvent) (c : Foreground) :
  timers_coherent d c → timers_coherent d (fg_on_event ev c).
Proof.
  unfold timers_coherent.
  destruct c as [tm out err timed tid kid kills promise]. simpl.
  intros [([->| ->] & -> & -> & ->)|(-> & -> & [[-> ->]|[-> ->]])];
    destruct ev; simpl; intuition eauto.
Qed.

Lemma fg_run_coherent (d : Z) (trace : list (Z * ChildEvent)) (c : Foreground) :
  timers_coherent d c → timers_coherent d (fg_run trace c).
Proof.
  revert c. induction trace as [|[t ev] trace IH]; intros c Hc; [done|].
  rewrite fg_run_cons. by apply IH, fg_on_event_coherent, advance_coherent.
Qed.

(** X6: whatever the child does and whenever, a foreground call makes
    at most two calls of [child.kill]: [SIGTERM] at the deadline and
    [SIGKILL] 1000 ms after it, never the second without the first;
    and [timedOut] is set exactly when the first was made. *)
Theorem signals_follow_the_deadline (now timeout t : Z) (trace : list (Z * ChildEvent)) :
  let d := now + setTimeout_delay timeout in
  let c := advance t (fg_run trace (start_foreground now timeout)) in
  (fg_kills c = [] ∧ fg_timedOut c = false)
  ∨ (fg_kills c = [(d, SIGTERM)] ∧ fg_timedOut c = true)
  ∨ (fg_kills c = [(d, SIGTERM); (d + 1000, SIGKILL)] ∧ fg_timedOut c = true).
Proof.
  intros d c.
  assert (timers_coherent d c) as Hc.
  { apply advance_coherent, fg_run_coherent. left. simpl. eauto. }
  destruct Hc as [(_ & _ & -> & ->)|(_ & -> & [[_ ->]|[_ ->]])]; eauto.
Qed.

(** A call whose timer was cleared before it ran stays without timer
    and without signal. *)
Lemma cancelled_forever (trace : list (Z * ChildEvent)) (c : Foreground) :
  fg_timeoutId c = Cleared → fg_killTimer c = Unset →
  fg_timeoutId (fg_run trace c) = Cleared
  ∧ fg_killTimer (fg_run trace c) = Unset
  ∧ fg_kills (fg_run trace c) = fg_kills c
  ∧ fg_timedOut (fg_run trace c) = fg_timedOut c.
Proof.
  revert c. induction trace as [|[t ev] trace IH]; intros c Htid Hkid; [done|].
  rewrite fg_run_cons.
  assert (advance t c = c) as Hadv.
  { unfold advance. by rewrite Htid, Hkid. }
  unfold fg_step. simpl. rewrite Hadv.
  destruct (IH (fg_on_event ev c)) as (-> & -> & -> & ->).
  - destruct ev; simpl; by rewrite ?Htid.
  - by destruct ev.
  - by destruct ev.
Qed.

(** X7: a ['close'] or an ['error'] that comes before the deadline
    cancels the termination for good: whatever follows, and however
    far the clock moves, no [child.kill] is made and [timedOut] stays
    false. *)
Theorem event_before_deadline_cancels_for_good (now timeout t t' : Z)
    (ev : ChildEvent) (pre post : list (Z * ChildEvent)) :
  data_until t pre = true → is_terminal ev = true →
  t < now + setTimeout_delay timeout →
  let c := advance t' (fg_run (pre ++ (t, ev) :: post) (start_foreground now timeout)) in
  fg_kills c = [] ∧ fg_timedOut c = false ∧ fg_timeoutId c = Cleared.
Proof.
  intros Hpre Hev Ht c. subst c.
  rewrite fg_run_app, fg_run_cons.
  change (fg_step (fg_run pre (start_foreground now timeout)) (t, ev))
    with (fg_on_event ev (advance t (fg_run pre (start_foreground now timeout)))).
  rewrite (fg_run_data_until t pre) by done.
  rewrite advance_before_deadline by done.
  set (c1 := fg_on_event ev _).
  assert (fg_timeoutId c1 = Cleared ∧ fg_killTimer c1 = Unset
          ∧ fg_kills c1 = [] ∧ fg_timedOut c1 = false) as (Htid & Hkid & Hk & Hto).
  { subst c1. by destruct ev. }
  destruct (cancelled_forever post c1 Htid Hkid) as (Htid' & Hkid' & Hk' & Hto').
  unfold advance. rewrite Htid', Hkid'. by rewrite Htid', Hk', Hto', Hk, Hto.
Qed.

(** X8: the deadline does not resolve the call: as long as the child
    only produces output, the promise stays pending, also after both
    signals have been sent. *)
Theorem pending_until_close_or_error (now timeout t : Z) (pre : list (Z * ChildEvent)) :
  forallb (λ tev, is_data tev.2) pre = true →
  fg_promise (advance t (fg_run pre (start_foreground now timeout))) = None.
Proof.
  intros Hpre.
  destruct (advance_fields t (fg_run pre (start_foreground now timeout)))
    as (_ & _ & _ & ->).
  by destruct (fg_run_output pre (start_foreground now timeout) Hpre) as (_ & _ & ->).
Qed.

(** X9: the first ['close'] or ['error'] of the child resolves the
    call, and the result is final: the events that follow, a ['close']
    after an ['error'] for one, do not change it. *)
Theorem first_terminal_event_decides_the_result (now timeout t : Z)
    (ev : ChildEvent) (pre post : list (Z * ChildEvent)) :
  forallb (λ tev, is_data tev.2) pre = true → is_terminal ev = true →
  let first := fg_promise (fg_run (pre ++ [(t, ev)]) (start_foreground now timeout)) in
  is_Some first
  ∧ fg_promise (fg_run (pre ++ (t, ev) :: post) (start_foreground now timeout)) = first.
Proof.
  intros Hpre Hev first. subst first.
  destruct (fg_run_output pre (start_foreground now timeout) Hpre) as (_ & _ & Hp).
  destruct (advance_fields t (fg_run pre (start_foreground now timeout)))
    as (_ & _ & _ & Hp').
  assert (is_Some (fg_promise
            (fg_run (pre ++ [(t, ev)]) (start_foreground now timeout)))) as [res Hres].
  { rewrite fg_run_app. simpl. unfold fg_step. simpl.
    destruct ev; simpl in *; try done; rewrite Hp', Hp; simpl; eauto. }
  split; [by rewrite Hres|].
  rewrite Hres. change ((t, ev) :: post) with ([(t, ev)] ++ post).
  rewrite app_assoc, fg_run_app. by apply promise_settles_once.
Qed.

(** X10: a child that closes before the deadline with a [null] code,
    as one killed by a signal from elsewhere does, is reported with
    exit code 1 and its output. *)
Theorem null_close_code_in_foreground_is_one (now timeout tc : Z)
    (pre : list (Z * ChildEvent)) :
  data_until tc pre = true → tc < now + setTimeout_delay timeout →
  fg_promise (fg_run (pre ++ [(tc, Close None)]) (start_foreground now timeout)) =
  Some (mkExecuteResult (stdout_of pre.*2) (stderr_of pre.*2) 1).
Proof.
  intros Hpre Htc. rewrite fg_run_close, advance_before_deadline by done.
  reflexivity.
Qed.

End Runtime.

(** ** Alias resolution *)

Section AliasProperties.

Context {V : Type} (inherited : string → option string).

Set Default Proof Using "Type".

(** The loop builds the map of the renamed properties, the first of
    each name winning. *)
Lemma resolve_fold (aliases : gmap string string) (props : list (string * V))
    (acc : gmap string V) :
  foldl (resolve_step inherited aliases) acc props =
  acc ∪ list_to_map (renamed inherited aliases props).
Proof.
  revert acc. induction props as [|[k v] props IH]; intros acc.
  - simpl. by rewrite (right_id_L ∅ (∪)).
  - simpl. rewrite IH. unfold resolve_step, in_result, renamed. simpl.
    destruct (acc !! canonicalKey inherited aliases k) as [w|] eqn:Hacc.
    + rewrite bool_decide_eq_true_2 by eauto. simpl.
      case_bool_decide; [done|]. simpl.
      apply map_eq. intros j. rewrite !lookup_union.
      destruct (decide (j = canonicalKey inherited aliases k)) as [->|Hne].
      * rewrite Hacc, lookup_insert_eq. by rewrite !union_Some_l.
      * by rewrite lookup_insert_ne.
    + rewrite bool_decide_eq_false_2 by (by intros [? ?]). simpl.
      case_bool_decide; simpl; [done|].
      by rewrite <- insert_union_r, insert_union_l.
Qed.

Lemma resolve_aliases_renamed (aliases : gmap string string) (props : list (string * V)) :
  resolve_aliases inherited aliases props = list_to_map (renamed inherited aliases props).
Proof. unfold resolve_aliases. by rewrite resolve_fold, (left_id_L ∅ (∪)). Qed.

Lemma renamed_cons (aliases : gmap string string) (k : string) (v : V)
    (props : list (string * V)) :
  renamed inherited aliases ((k, v) :: props) =
  (if bool_decide (is_Some (inherited (canonicalKey inherited aliases k))) then []
   else [(canonicalKey inherited aliases k, v)]) ++ renamed inherited aliases props.
Proof. unfold renamed. simpl. by case_bool_decide. Qed.

(** X11: of the properties of the argument that go by the same
    canonical name, an alias or the name itself, the first in the order
    of [Object.keys] gives the value; the later ones are dropped, the
    property under the canonical name itself too when an alias comes
    before it.  That is so for a canonical name [Object.prototype] does
    not define; under one that it defines, nothing is set at all. *)
Theorem first_key_for_a_name_wins (aliases : gmap string string)
    (pre post : list (string * V)) (k : string) (v : V) :
  Forall (λ kv, canonicalKey inherited aliases kv.1 ≠ canonicalKey inherited aliases k) pre →
  resolve_aliases inherited aliases (pre ++ (k, v) :: post)
    !! canonicalKey inherited aliases k =
  match inherited (canonicalKey inherited aliases k) with
  | None => Some v
  | Some _ => None
  end.
Proof.
  intros Hpre. rewrite resolve_aliases_renamed.
  destruct (inherited (canonicalKey inherited aliases k)) as [text|] eqn:Hk.
  - apply not_elem_of_list_to_map_1. intros Hin.
    apply list_elem_of_fmap in Hin as ([c w] & Hc & Hin). simpl in Hc. subst c.
    apply list_elem_of_omap in Hin as ([k' w'] & _ & Hsome). simpl in Hsome.
    case_bool_decide as Hinh; [done|]. injection Hsome as Heq _.
    apply Hinh. rewrite Heq, Hk. eauto.
  - induction Hpre as [|[k' v'] pre Hne Hpre IH].
    + rewrite app_nil_l, renamed_cons, Hk.
      rewrite bool_decide_eq_false_2 by (by intros [? ?]). simpl.
      apply lookup_insert_eq.
    + rewrite <- app_comm_cons, renamed_cons. case_bool_decide; simpl; [done|].
      by rewrite lookup_insert_ne.
Qed.

(** X12: without aliases, as both tools are registered, an argument
    object none of whose keys [Object.prototype] defines goes to the
    schema with the properties it has. *)
Theorem no_aliases_no_change (props : list (string * V)) :
  Forall (λ kv, inherited kv.1 = None) props →
  preprocess inherited ∅ (Object props) = Built (list_to_map props).
Proof.
  intros Hprops. simpl. f_equal. rewrite resolve_aliases_renamed. f_equal.
  induction Hprops as [|[k v] props Hk Hprops IH]; [done|].
  rewrite renamed_cons, IH. unfold canonicalKey. rewrite lookup_empty.
  simpl in Hk. rewrite !Hk. simpl.
  by rewrite bool_decide_eq_false_2 by (rewrite Hk; by intros [? ?]).
Qed.

(** X13: every property of the result is a property of the argument
    under its canonical name: the loop invents neither a key nor a
    value, and sets no key that [Object.prototype] defines. *)
Theorem resolved_properties_come_from_the_input (aliases : gmap string string)
    (props : list (string * V)) (canonical : string) (v : V) :
  resolve_aliases inherited aliases props !! canonical = Some v →
  inherited canonical = None
  ∧ ∃ k, (k, v) ∈ props ∧ canonicalKey inherited aliases k = canonical.
Proof.
  rewrite resolve_aliases_renamed. intros Hv.
  apply elem_of_list_to_map_2, list_elem_of_omap in Hv as ([k v'] & Hin & Hsome).
  simpl in Hsome. case_bool_decide as Hinh; [done|].
  injection Hsome as <- <-. split; [|eauto].
  destruct (inherited (canonicalKey inherited aliases k)) eqn:E; [|done].
  destruct Hinh. eauto.
Qed.

(** X14: resolving is idempotent when no key that comes out is itself
    an alias: an object with the properties of the result resolves to
    the result. *)
Theorem resolving_again_changes_nothing (aliases : gmap string string)
    (props again : list (string * V)) :
  (∀ canonical, is_Some (resolve_aliases inherited aliases props !! canonical) →
                aliases !! canonical = None) →
  list_to_map again = resolve_aliases inherited aliases props →
  resolve_aliases inherited aliases again = resolve_aliases inherited aliases props.
Proof.
  intros Hplain Hagain. rewrite <- Hagain.
  rewrite (resolve_aliases_renamed aliases again). f_equal.
  assert (∀ k, k ∈ again.*1 → aliases !! k = None ∧ inherited k = None) as Hkeys.
  { intros k Hk.
    destruct ((list_to_map again : gmap string V) !! k) as [w|] eqn:Hw.
    - rewrite Hagain in Hw. split; [apply Hplain; eauto|].
      by apply resolved_properties_come_from_the_input in Hw as [? _].
    - by apply not_elem_of_list_to_map_2 in Hw. }
  clear Hagain Hplain. induction again as [|[k v] again IH]; [done|].
  destruct (Hkeys k) as [Ha Hi]; [simpl; constructor|].
  rewrite renamed_cons, IH.
  - unfold canonicalKey. rewrite Ha, Hi. simpl.
    by rewrite bool_decide_eq_false_2 by (rewrite Hi; by intros [? ?]).
  - intros k' Hk'. apply Hkeys. simpl. by constructor.
Qed.

End AliasProperties.

(** ** The theorems at work on concrete runs *)

(** The runs of the tests 'captures stderr' and 'returns exit code for
    failed commands'. *)
Example captures_stderr :
  fg_promise (fg_run ascii_toString decimal
                [(12, StderrData (bytes ("error" +:+ LF))); (15, Close (Some 0))]
                (start_foreground 0 5000)) =
  Some (mkExecuteResult "" ("error" +:+ LF) 0).
Proof. reflexivity. Qed.

Example returns_exit_code :
  fg_promise (fg_run ascii_toString decimal [(9, Close (Some 42))]
                (start_foreground 0 5000)) =
  Some (mkExecuteResult "" "" 42).
Proof. reflexivity. Qed.

(** The ['close'] callback of a background job has no guard: a
    ['close'] that follows an ['error'] and carries a code replaces
    the 1 the ['error'] callback stored, while the foreground promise
    keeps its first result. *)
Example background_close_after_error :
  job_run ascii_toString [Error "spawn bash ENOENT"; Close (Some (-2))]
          (mkJob (mkChild None) "" "" None 0) =
  mkJob (mkChild None) "" (LF +:+ "Process error: spawn bash ENOENT") (Some (-2)) 0.
Proof. reflexivity. Qed.

(** The run of the test 'returns status of a background job':
    [echo done] in the background, its output, its exit; then two
    polls. *)
Lemma completed_job_is_read_once_witness :
  op_run ascii_toString
    [OpExecute "echo done" "0.4fzyo82mvyr" (mkChild (Some 4242)) 0;
     OpEvent 0%nat (StdoutData (bytes ("done" +:+ LF)));
     OpEvent 0%nat (Close (Some 0))] initial = server_completed
  ∧ (get_job_status "4fzyo82m" server_completed).2 =
      Returned (mkStatusResult ("done" +:+ LF) "" (Some 0) false)
  ∧ (get_job_status "4fzyo82m" (get_job_status "4fzyo82m" server_completed).1).2 =
      Thrown "Job not found: 4fzyo82m"
  ∧ (get_job_status "nonexistent" initial).2 = Thrown "Job not found: nonexistent".
Proof.
  destruct (completed_job_is_read_once ascii_toString server_completed "4fzyo82m"
              0%nat completed_job 0 eq_refl eq_refl eq_refl)
    as (Hfirst & _ & _ & Hlater & Hunknown).
  split; [reflexivity|]. split; [exact Hfirst|]. split.
  - exact (f_equal snd (Hlater [] (not_elem_of_nil _))).
  - exact (f_equal snd (Hunknown [] "nonexistent" (not_elem_of_nil _))).
Defined.

Lemma polling_a_running_job_is_idempotent_witness :
  get_job_status "4fzyo82m"
    (op_run ascii_toString (replicate 3 (OpStatus "4fzyo82m")) server_running) =
  (server_running, Returned (mkStatusResult "partial" "" None true)).
Proof.
  exact (proj1 (polling_a_running_job_is_idempotent ascii_toString server_running
                  "4fzyo82m" 0%nat running_job eq_refl eq_refl eq_refl 3%nat)).
Defined.

(** The background call of the test 'runs commands in background'. *)
Lemma background_execute_returns_at_once_witness :
  ∃ s', execute (mkArgs "echo bg" None (Some true)) "0.4fzyo82mvyr"
                (mkChild (Some 4242)) 0 initial =
          InBackground s' (Returned (mkBackgroundResult "4fzyo82m" 4242))
        ∧ heap s' !! 0%nat = Some (mkJob (mkChild (Some 4242)) "" "" None 0).
Proof.
  destruct (background_execute_returns_at_once
              (mkArgs "echo bg" None (Some true)) "0.4fzyo82mvyr"
              (mkChild (Some 4242)) 0 initial eq_refl)
    as (s' & Hres & _ & Hjob & _).
  exists s'. split; [exact Hres | exact Hjob].
Defined.

(** A child that cannot be spawned has no pid: the result carries
    [pid: 0], which is not positive. *)
Lemma background_pid_is_zero_without_child :
  ¬ background_result_positive (mkArgs "echo bg" None (Some true)) "0.4fzyo82mvyr"
      (mkChild None) 0 initial.
Proof.
  intros (s' & res & Hres & _ & Hpid).
  injection Hres as _ <-. simpl in Hpid. lia.
Qed.

Lemma exit_code_is_set_once_witness :
  let evs := [StdoutData (bytes "a"); StderrData (bytes "b"); Close (Some 3)] in
  settlements ascii_toString evs running_job = 1%nat
  ∧ job_exitCode (job_run ascii_toString evs running_job) = Some 3
  ∧ job_stdout (job_run ascii_toString evs running_job) = "partiala".
Proof.
  intros evs.
  destruct (exit_code_is_set_once ascii_toString running_job evs eq_refl)
    as (_ & Honce & _ & Hacc).
  split; [exact (Honce eq_refl)|]. split; [reflexivity|].
  exact (proj1 (Hacc eq_refl evs [] (eq_sym (app_nil_r evs)) (mk_is_Some _ _ eq_refl))).
Defined.

Lemma deadline_is_the_timeout_or_5000_witness :
  execute (mkArgs "echo hello" None None) "0.4fzyo82mvyr" (mkChild (Some 4242)) 7 initial
  = InForeground (start_foreground 7 5000)
  ∧ fg_timeoutId (start_foreground 7 5000) = Pending 5007.
Proof.
  destruct (deadline_is_the_timeout_or_5000 (mkArgs "echo hello" None None)
              "0.4fzyo82mvyr" (mkChild (Some 4242)) 7 initial eq_refl)
    as (c & Hc & Hnone & _).
  split; [reflexivity|]. injection Hc as <-. exact (proj2 (Hnone eq_refl)).
Defined.


(** The run of the test 'times out long-running commands': [sleep 10]
    with [timeout: 100], the child closing right after the [SIGTERM]. *)
Lemma timeout_terminates_then_kills_witness :
  let c := fg_run ascii_toString decimal ([] ++ [(103, Close None)])
                  (start_foreground 0 100) in
  fg_promise c =
    Some (mkExecuteResult "" (LF +:+ "Process timed out after 100ms") 124)
  ∧ fg_kills (advance 1100 c) = [(100, SIGTERM); (1100, SIGKILL)].
Proof.
  intros c.
  destruct (timeout_terminates_then_kills ascii_toString decimal 0 100 103 None []
              eq_refl) as (_ & Hres & _ & Hkill).
  - vm_compute. discriminate.
  - split; [exact Hres|]. apply Hkill. vm_compute. discriminate.
Defined.



Lemma spawn_failure_is_captured_witness :
  fg_promise (fg_run ascii_toString decimal
                ([] ++ (1, Error "spawn bash ENOENT") :: [(2, Close (Some (-2)))])
                (start_foreground 0 5000)) =
    Some (mkExecuteResult "" (LF +:+ "Process error: spawn bash ENOENT") 1)
  ∧ ∃ s1, execute (mkArgs "echo bg" None (Some true)) "0.4fzyo82mvyr"
                  (mkChild None) 0 initial =
            InBackground s1 (Returned (mkBackgroundResult "4fzyo82m" 0))
          ∧ (get_job_status "4fzyo82m"
               (deliver ascii_toString 0%nat (Error "spawn bash ENOENT") s1)).2 =
              Returned (mkStatusResult "" (LF +:+ "Process error: spawn bash ENOENT")
                                       (Some 1) false).
Proof.
  destruct (spawn_failure_is_captured ascii_toString decimal) as [Hfg Hbg].
  split.
  - exact (Hfg 0 5000 1 "spawn bash ENOENT" [] [(2, Close (Some (-2)))] eq_refl).
  - destruct (Hbg (mkArgs "echo bg" None (Some true)) "0.4fzyo82mvyr" (mkChild None)
                0 initial "spawn bash ENOENT" eq_refl) as (s1 & Hres & _ & Hstatus).
    exists s1. split; [exact Hres | exact Hstatus].
Defined.

(** ** The further properties at work on concrete runs *)

Lemma status_depends_on_own_events_only_witness :
  (get_job_status "4fzyo82m"
     (op_run ascii_toString
        [OpExecute "ls" "0.zzzz1111xx" (mkChild (Some 5)) 3;
         OpEvent 1%nat (StdoutData (bytes "x"));
         OpEvent 0%nat (StdoutData (bytes " more"));
         OpStatus "zzzz1111";
         OpEvent 0%nat (Close (Some 2))] server_running)).2 =
  Returned (mkStatusResult "partial more" "" (Some 2) false).
Proof.
  refine (proj2 (status_depends_on_own_events_only ascii_toString server_running
                   "4fzyo82m" 0%nat running_job _ eq_refl eq_refl _ _)).
  - intros Hin. apply list_elem_of_In in Hin. simpl in Hin.
    destruct Hin as [Heq|[]]. discriminate Heq.
  - intros Hin. apply list_elem_of_In in Hin. simpl in Hin.
    destruct Hin as [Heq|[]]. discriminate Heq.
Defined.

Lemma drawn_id_takes_over_the_entry_witness :
  let s' := (execute_background "0.4fzyo82mvyr" (mkChild (Some 77)) 9 server_running).1 in
  get_job_status "4fzyo82m" s' = (s', Returned (mkStatusResult "" "" None true))
  ∧ heap s' !! 0%nat = Some running_job.
Proof.
  intros s'.
  destruct (drawn_id_takes_over_the_entry server_running "0.4fzyo82mvyr"
              (mkChild (Some 77)) 9 0%nat eq_refl) as (Hnew & Hold & _).
  - simpl. lia.
  - split; [exact Hnew | exact Hold].
Defined.

Lemma background_job_end_to_end_witness :
  (get_job_status "4fzyo82m"
     (op_run ascii_toString
        (OpExecute "echo done" "0.4fzyo82mvyr" (mkChild (Some 4242)) 0 ::
         map (OpEvent 0%nat) ([StdoutData (bytes ("done" +:+ LF))] ++ [Close (Some 0)]))
        initial)).2 =
  Returned (mkStatusResult ("done" +:+ LF) "" (Some 0) false).
Proof.
  exact (f_equal snd (background_job_end_to_end ascii_toString initial "echo done"
                        "0.4fzyo82mvyr" (mkChild (Some 4242)) 0 0
                        [StdoutData (bytes ("done" +:+ LF))] eq_refl)).
Defined.

Lemma last_terminal_event_sets_the_code_witness :
  job_exitCode (job_run ascii_toString
                  ([Error "spawn bash ENOENT"] ++ Close (Some (-2)) :: [])
                  running_job) = Some (-2).
Proof.
  exact (last_terminal_event_sets_the_code ascii_toString running_job
           [Error "spawn bash ENOENT"] [] (Close (Some (-2))) eq_refl eq_refl).
Defined.

Lemma job_id_length_witness :
  generateJobId "0" = "" ∧ String.length (generateJobId "0.i") = 1%nat.
Proof.
  split.
  - apply (proj1 (proj2 (job_id_length "0"))). simpl. lia.
  - exact (proj1 (job_id_length "0.i")).
Defined.

Lemma event_before_deadline_cancels_for_good_witness :
  fg_kills (advance 5000
              (fg_run ascii_toString decimal
                 ([] ++ (50, Error "write EPIPE") :: [(60, Close (Some 0))])
                 (start_foreground 0 100))) = [].
Proof.
  refine (proj1 (event_before_deadline_cancels_for_good ascii_toString decimal
                   0 100 50 5000 (Error "write EPIPE") [] [(60, Close (Some 0))]
                   eq_refl eq_refl _)).
  vm_compute. reflexivity.
Defined.

Lemma pending_until_close_or_error_witness :
  fg_promise (advance 5000
                (fg_run ascii_toString decimal [(10, StdoutData (bytes "tick"))]
                   (start_foreground 0 100))) = None.
Proof.
  exact (pending_until_close_or_error ascii_toString decimal 0 100 5000
           [(10, StdoutData (bytes "tick"))] eq_refl).
Defined.

Lemma first_terminal_event_decides_the_result_witness :
  fg_promise (fg_run ascii_toString decimal
                ([] ++ (1, Error "spawn bash ENOENT") :: [(2, Close (Some (-2)))])
                (start_foreground 0 5000)) =
  fg_promise (fg_run ascii_toString decimal
                ([] ++ [(1, Error "spawn bash ENOENT")]) (start_foreground 0 5000)).
Proof.
  exact (proj2 (first_terminal_event_decides_the_result ascii_toString decimal
                  0 5000 1 (Error "spawn bash ENOENT") [] [(2, Close (Some (-2)))]
                  eq_refl eq_refl)).
Defined.

Lemma null_close_code_in_foreground_is_one_witness :
  fg_promise (fg_run ascii_toString decimal ([] ++ [(50, Close None)])
                (start_foreground 0 5000)) =
  Some (mkExecuteResult "" "" 1).
Proof.
  refine (null_close_code_in_foreground_is_one ascii_toString decimal 0 5000 50 []
            eq_refl _).
  vm_compute. reflexivity.
Defined.

(** An alias before the canonical name: the value of the alias is
    kept, that of the canonical name dropped. *)
Lemma first_key_for_a_name_wins_witness :
  resolve_aliases sample_prototype {[ "new_string" := "new_str" ]}
    ([] ++ ("new_string", 1) :: [("new_str", 2)]) !! "new_str" = Some 1.
Proof.
  exact (first_key_for_a_name_wins sample_prototype {[ "new_string" := "new_str" ]}
           [] [("new_str", 2)] "new_string" 1 (Forall_nil_2 _)).
Defined.

Lemma no_aliases_no_change_witness :
  preprocess sample_prototype ∅ (Object [("command", 1); ("timeout", 2)]) =
  Built (list_to_map [("command", 1); ("timeout", 2)]).
Proof.
  apply no_aliases_no_change.
  apply Forall_cons_2; [reflexivity|].
  apply Forall_cons_2; [reflexivity|]. apply Forall_nil_2.
Defined.

Lemma resolved_properties_come_from_the_input_witness :
  sample_prototype "new_str" = None
  ∧ ∃ k, (k, 1) ∈ [("new_string", 1)]
         ∧ canonicalKey sample_prototype {[ "new_string" := "new_str" ]} k = "new_str".
Proof.
  exact (resolved_properties_come_from_the_input sample_prototype
           {[ "new_string" := "new_str" ]} [("new_string", 1)] "new_str" 1 eq_refl).
Defined.

Lemma resolving_again_changes_nothing_witness :
  resolve_aliases sample_prototype {[ "new_string" := "new_str" ]} [("new_str", 1)] =
  resolve_aliases sample_prototype {[ "new_string" := "new_str" ]} [("new_string", 1)].
Proof.
  apply resolving_again_changes_nothing; [|reflexivity].
  intros canonical [w Hw].
  destruct (decide (canonical = "new_str")) as [->|Hne]; [reflexivity|].
  change (resolve_aliases sample_prototype {[ "new_string" := "new_str" ]}
            [("new_string", 1)])
    with (<["new_str" := 1]> (∅ : gmap string Z)) in Hw.
  rewrite lookup_insert_ne, lookup_empty in Hw by done. discriminate Hw.
Defined.


(** [timeout: 0]: the timer is due 1 ms after the start, not 0 ms. *)
Lemma timeout_zero_is_due_after_one_ms :
  ¬ timer_due_after_timeout (mkArgs "sleep 10" (Some 0) None) "0.4fzyo82mvyr"
      (mkChild (Some 4242)) 0 initial.
Proof.
  intros H. destruct (H eq_refl) as (c & Hc & Hdue).
  injection Hc as <-. vm_compute in Hdue. discriminate Hdue.
Qed.
